(** * LexiDrom backend: the text comparison service

    A shallow embedding of [app/services/text_comparison_service.py]
    ([TextComparisonService]) and the properties of its three evaluation
    tiers: the structured parse of the model's answer, the heuristic line
    scan, and the local word-overlap score.

    Conventions of the embedding.
    - A Python [str] is the list of its Unicode code points.
    - A Python value produced by [json.loads] or returned by the service is
      a [value]; the service is dynamically typed, and the structured tier
      hands back whatever the decoded object holds.
    - A Python call that can raise returns a [result]; [try: ... except
      Exception:] is [try_except].  The [print] calls of the handlers are
      not modelled.
    - What the service takes from the Python runtime beyond ASCII (the
      Unicode lowercase mapping and decimal digits above U+007F, the digit
      limit of [int]) is a parameter [rt] of the development; on ASCII text
      every function is defined outright and computes.
    - The recursion limit of the interpreter is not modelled; it raises
      inside a [try] block of the service.
    - The floats of the local score are doubles with their rounding (module
      [float]). *)

From Stdlib Require Import ZArith NArith List String Ascii Lia Bool.
From Stdlib Require Import Floats.SpecFloat.
From stdpp Require Import base option list gmap sets.
Set Warnings "-register-all".
Import ListNotations.
Open Scope Z_scope.

(** ** Strings *)

Abbreviation char := N (only parsing).
Abbreviation str := (list N) (only parsing).

(** Literals.  [u "..."] is the [str] of an ASCII literal, in which a
    backquote stands for the double quote character U+0022. *)
Definition u_char (a : ascii) : char :=
  let n := N_of_ascii a in if (n =? 96)%N then 34%N else n.

Definition u (s : string) : str := map u_char (list_ascii_of_string s).
Arguments u _%_string.

Definition LF : char := 10%N.
Definition BULLET : char := 8226%N.

Definition str_eqb (a b : str) : bool := bool_decide (a = b).

(** [s.startswith(p)] *)
Fixpoint startswith (s p : str) : bool :=
  match p, s with
  | [], _ => true
  | _ :: _, [] => false
  | c :: p', d :: s' => (c =? d)%N && startswith s' p'
  end.

(** [sub in s] *)
Fixpoint contains (s sub : str) : bool :=
  startswith s sub ||
  match s with
  | [] => false
  | _ :: s' => contains s' sub
  end.

(** [str.isspace] for one code point ([Py_UNICODE_ISSPACE]); the same set is
    the class [\s] of [re] on [str] patterns and the separator set of
    [str.split()] and [str.strip()]. *)
Definition isspace (c : char) : bool :=
  ((9 <=? c) && (c <=? 13) || (28 <=? c) && (c <=? 32) ||
   (c =? 133) || (c =? 160) || (c =? 5760) ||
   (8192 <=? c) && (c <=? 8202) || (c =? 8232) || (c =? 8233) ||
   (c =? 8239) || (c =? 8287) || (c =? 12288))%N.

Fixpoint lstrip (s : str) : str :=
  match s with
  | c :: s' => if isspace c then lstrip s' else s
  | [] => []
  end.

Definition rstrip (s : str) : str := rev (lstrip (rev s)).

(** [s.strip()] *)
Definition strip (s : str) : str := rstrip (lstrip s).

(** [s.split(sep)] for a one-character separator: never empty, keeps empty
    fields. *)
Fixpoint split_on (sep : char) (s : str) : list str :=
  match s with
  | [] => [[]]
  | c :: s' =>
      if (c =? sep)%N then [] :: split_on sep s'
      else match split_on sep s' with
           | w :: ws => (c :: w) :: ws
           | [] => [[c]]
           end
  end.

(** [s.split()]: maximal runs of non-whitespace. *)
Fixpoint split_ws_aux (word : str) (s : str) : list str :=
  match s with
  | [] => match word with [] => [] | _ => [rev word] end
  | c :: s' =>
      if isspace c
      then match word with
           | [] => split_ws_aux [] s'
           | _ => rev word :: split_ws_aux [] s'
           end
      else split_ws_aux (c :: word) s'
  end.

Definition split_ws (s : str) : list str := split_ws_aux [] s.

(** ** Python values and exceptions *)

Inductive value :=
  | VNone
  | VBool (b : bool)
  | VInt (z : Z)
  | VFloat (literal : str)   (* a float, kept as the literal that denotes it *)
  | VStr (s : str)
  | VList (items : list value)
  | VDict (pairs : list (str * value)).

(** The exceptions that [except Exception] catches. *)
Inductive exn :=
  | JSONDecodeError
  | AttributeError
  | ValueError
  | RecursionError
  | ModelError (message : str).   (* whatever the model client raises *)

Inductive result (A : Type) :=
  | Ok (a : A)
  | Raise (e : exn).
Arguments Ok {A} a.
Arguments Raise {A} e.

#[global] Instance result_ret : MRet result := fun A a => Ok a.
#[global] Instance result_bind : MBind result := fun A B f m =>
  match m with
  | Ok a => f a
  | Raise e => Raise e
  end.

(** [try: body except Exception as e: handler(e)] *)
Definition try_except {A} (body : result A) (handler : exn -> result A) : result A :=
  match body with
  | Ok a => Ok a
  | Raise e => handler e
  end.

Definition returns {A} (r : result A) : Prop := exists a, r = Ok a.

(** A [dict] built by insertions: an existing key keeps its place and takes
    the new value. *)
Fixpoint dict_set (d : list (str * value)) (k : str) (v : value) : list (str * value) :=
  match d with
  | [] => [(k, v)]
  | (k', v') :: d' => if str_eqb k' k then (k, v) :: d' else (k', v') :: dict_set d' k v
  end.

Fixpoint dict_lookup (d : list (str * value)) (k : str) : option value :=
  match d with
  | [] => None
  | (k', v) :: d' => if str_eqb k' k then Some v else dict_lookup d' k
  end.

(** [data.get(key, default)]; an object without a [get] method raises. *)
Definition py_get (data : value) (key : str) (dflt : value) : result value :=
  match data with
  | VDict d => Ok (default dflt (dict_lookup d key))
  | _ => Raise AttributeError
  end.

(** ** [json.loads]

    The decoder of CPython's [json] package with its default settings
    (C scanner, [strict=True], no hooks).  Every decoding error is a
    [JSONDecodeError]. *)
Module json.
Section decoder.

(** The [parse_int] hook; [loads] is called with [int]. *)
Variable parse_int : str -> result Z.

Definition is_digit (c : char) : bool := ((48 <=? c) && (c <=? 57))%N.

(** JSON whitespace: space, tab, line feed, carriage return. *)
Definition is_ws (c : char) : bool :=
  ((c =? 32) || (c =? 9) || (c =? 10) || (c =? 13))%N.

Fixpoint skip_ws (s : str) : str :=
  match s with
  | c :: s' => if is_ws c then skip_ws s' else s
  | [] => []
  end.

(** [expect c s]: the text after [c] when [s] starts with [c]. *)
Definition expect (c : char) (s : str) : option str :=
  match s with
  | d :: r => if (d =? c)%N then Some r else None
  | [] => None
  end.

Fixpoint span_digits (s : str) : str * str :=
  match s with
  | c :: s' =>
      if is_digit c then let '(ds, r) := span_digits s' in (c :: ds, r)
      else ([], s)
  | [] => ([], [])
  end.

Definition hex_value (c : char) : option N :=
  if is_digit c then Some (c - 48)%N
  else if ((97 <=? c) && (c <=? 102))%N then Some (c - 87)%N
  else if ((65 <=? c) && (c <=? 70))%N then Some (c - 55)%N
  else None.

Definition hex4 (a b c d : char) : option N :=
  x ← hex_value a; y ← hex_value b; z ← hex_value c; w ← hex_value d;
  Some (((x * 16 + y) * 16 + z) * 16 + w)%N.

Definition is_high_surrogate (c : N) : bool := ((55296 <=? c) && (c <=? 56319))%N.
Definition is_low_surrogate (c : N) : bool := ((56320 <=? c) && (c <=? 57343))%N.
Definition join_surrogates (hi lo : N) : N :=
  (65536 + ((hi - 55296) * 1024 + (lo - 56320)))%N.

Definition simple_escape (c : char) : option char :=
  if (c =? 34)%N then Some 34%N            (* quote *)
  else if (c =? 92)%N then Some 92%N       (* backslash *)
  else if (c =? 47)%N then Some 47%N       (* slash *)
  else if (c =? 98)%N then Some 8%N        (* b: backspace *)
  else if (c =? 102)%N then Some 12%N      (* f: form feed *)
  else if (c =? 110)%N then Some 10%N      (* n: line feed *)
  else if (c =? 114)%N then Some 13%N      (* r: carriage return *)
  else if (c =? 116)%N then Some 9%N       (* t: tab *)
  else None.

(** [scanstring]: [s] starts after the opening quote; the result is the
    decoded string and the text after the closing quote.  A [\uXXXX] that
    is a high surrogate is joined with a following [\uXXXX] low surrogate. *)
Fixpoint scanstring (s : str) (acc : str) : result (str * str) :=
  match s with
  | [] => Raise JSONDecodeError
  | 34%N :: rest => Ok (rev acc, rest)
  | 92%N :: 117%N :: h1 :: h2 :: h3 :: h4 :: rest =>
      match hex4 h1 h2 h3 h4 with
      | None => Raise JSONDecodeError
      | Some c =>
          match rest with
          | 92%N :: 117%N :: k1 :: k2 :: k3 :: k4 :: rest' =>
              if is_high_surrogate c then
                match hex4 k1 k2 k3 k4 with
                | None => Raise JSONDecodeError
                | Some c2 =>
                    if is_low_surrogate c2
                    then scanstring rest' (join_surrogates c c2 :: acc)
                    else scanstring rest (c :: acc)
                end
              else scanstring rest (c :: acc)
          | _ => scanstring rest (c :: acc)
          end
      end
  | 92%N :: 117%N :: _ => Raise JSONDecodeError
  | 92%N :: e :: rest =>
      match simple_escape e with
      | Some c => scanstring rest (c :: acc)
      | None => Raise JSONDecodeError
      end
  | 92%N :: [] => Raise JSONDecodeError
  | c :: rest =>
      if (c <=? 31)%N then Raise JSONDecodeError   (* control character *)
      else scanstring rest (c :: acc)
  end.

(** Numbers: an optional minus sign, an integer part (a single 0, or a
    nonzero digit and further digits), an optional fraction (a point and
    digits) and an optional exponent (e or E, an optional sign, digits),
    the longest match; a literal with neither fraction nor exponent is an
    [int], any other a [float]. *)
Definition match_int_part (s : str) : option (str * str) :=
  match s with
  | c :: r =>
      if (c =? 48)%N then Some ([c], r)
      else if is_digit c then let '(ds, r') := span_digits r in Some (c :: ds, r')
      else None
  | [] => None
  end.

Definition match_frac (s : str) : str * str :=
  match expect 46%N s with
  | Some (d :: r) =>
      if is_digit d then let '(ds, r') := span_digits r in (46%N :: d :: ds, r')
      else ([], s)
  | _ => ([], s)
  end.

Definition match_exp (s : str) : str * str :=
  match s with
  | e :: r =>
      if ((e =? 101) || (e =? 69))%N then
        let '(sign, r1) :=
          match r with
          | c :: r' => if ((c =? 45) || (c =? 43))%N then ([c], r') else ([], r)
          | [] => ([], r)
          end in
        match span_digits r1 with
        | ([], _) => ([], s)
        | (ds, r2) => (e :: sign ++ ds, r2)
        end
      else ([], s)
  | [] => ([], s)
  end.

Definition match_number (s : str) : result (value * str) :=
  let '(neg, s1) := match expect 45%N s with
                    | Some r => (true, r)
                    | None => (false, s)
                    end in
  match match_int_part s1 with
  | None => Raise JSONDecodeError
  | Some (ds, r) =>
      let '(frac, r1) := match_frac r in
      let '(ex, r2) := match_exp r1 in
      let sign := if neg then [45%N] else [] in
      match frac ++ ex with
      | [] => n ← parse_int (sign ++ ds); Ok (VInt n, r2)
      | tail => Ok (VFloat (sign ++ ds ++ tail), r2)
      end
  end.

(** [scan_once], [JSONObject] and [JSONArray].  [fuel] bounds the number
    of nested calls; [loads] gives more than the text can use (two calls
    for each character). *)
Fixpoint scan_once (fuel : nat) (s : str) {struct fuel} : result (value * str) :=
  match fuel with
  | O => Raise RecursionError
  | S fuel' =>
      match s with
      | [] => Raise JSONDecodeError
      | c :: rest =>
          if (c =? 34)%N then
            '(k, r) ← scanstring rest []; Ok (VStr k, r)
          else if (c =? 123)%N then
            match expect 125%N (skip_ws rest) with
            | Some r => Ok (VDict [], r)
            | None => object_members fuel' [] (skip_ws rest)
            end
          else if (c =? 91)%N then
            match expect 93%N (skip_ws rest) with
            | Some r => Ok (VList [], r)
            | None => array_items fuel' [] (skip_ws rest)
            end
          else if startswith s (u "null") then Ok (VNone, drop 4 s)
          else if startswith s (u "true") then Ok (VBool true, drop 4 s)
          else if startswith s (u "false") then Ok (VBool false, drop 5 s)
          else if startswith s (u "NaN") then Ok (VFloat (u "NaN"), drop 3 s)
          else if startswith s (u "Infinity") then Ok (VFloat (u "Infinity"), drop 8 s)
          else if startswith s (u "-Infinity") then Ok (VFloat (u "-Infinity"), drop 9 s)
          else match_number s
      end
  end
with object_members (fuel : nat) (d : list (str * value)) (s : str) {struct fuel}
  : result (value * str) :=
  match fuel with
  | O => Raise RecursionError
  | S fuel' =>
      match expect 34%N s with
      | None => Raise JSONDecodeError           (* a property name must follow *)
      | Some r =>
          '(key, r) ← scanstring r [];
          match expect 58%N (skip_ws r) with
          | None => Raise JSONDecodeError       (* a colon must follow *)
          | Some r =>
              '(val, r) ← scan_once fuel' (skip_ws r);
              let d := dict_set d key val in
              match expect 125%N (skip_ws r), expect 44%N (skip_ws r) with
              | Some r, _ => Ok (VDict d, r)
              | None, Some r => object_members fuel' d (skip_ws r)
              | None, None => Raise JSONDecodeError
              end
          end
      end
  end
with array_items (fuel : nat) (acc : list value) (s : str) {struct fuel}
  : result (value * str) :=
  match fuel with
  | O => Raise RecursionError
  | S fuel' =>
      '(val, r) ← scan_once fuel' s;
      match expect 93%N (skip_ws r), expect 44%N (skip_ws r) with
      | Some r, _ => Ok (VList (rev (val :: acc)), r)
      | None, Some r => array_items fuel' (val :: acc) (skip_ws r)
      | None, None => Raise JSONDecodeError
      end
  end.

(** [json.loads(s)] for a [str] argument. *)
Definition loads (s : str) : result value :=
  if startswith s [65279%N] then Raise JSONDecodeError   (* byte order mark *)
  else
    '(obj, rest) ← scan_once (S (2 * length s)) (skip_ws s);
    match skip_ws rest with
    | [] => Ok obj
    | _ => Raise JSONDecodeError                          (* extra data *)
    end.

(** What a call of the decoder on [s] does when its fuel suffices: it
    returns what is left of the text, shorter than [s], or raises something
    else than [RecursionError]. *)
Definition progresses (s : str) (res : result (value * str)) : Prop :=
  match res with
  | Ok (_, r) => (length r < length s)%nat
  | Raise e => e <> RecursionError
  end.

End decoder.
End json.

(** ** Double precision arithmetic

    The three operations of [int((overlap / total_original) * 100)] on
    non-negative operands.  A double is kept as [mant * 2 ^ expo]; every
    operation rounds its exact result to a 53-bit significand, ties to even,
    as IEEE 754 binary64 does.  The exponent range is not bounded: for
    operands below 2^63, as the sizes of Python containers are, none of
    these operations overflows or underflows. *)
Module float.

Record t := { mant : Z; expo : Z }.

(** The integer nearest to [n / d], ties to even ([0 <= n], [0 < d]). *)
Definition rne (n d : Z) : Z :=
  let q := n / d in
  let r := n mod d in
  if 2 * r <? d then q
  else if d <? 2 * r then q + 1
  else if Z.even q then q else q + 1.

(** [floor (log2 (n / d))] for [0 < n], [0 < d]. *)
Definition ilog2 (n d : Z) : Z :=
  let k := Z.log2 n - Z.log2 d in
  if (if 0 <=? k then d * 2 ^ k <=? n else d <=? n * 2 ^ (- k))
  then k else k - 1.

(** The double nearest to the rational [n / d]. *)
Definition round (n d : Z) : t :=
  if n =? 0 then {| mant := 0; expo := 0 |}
  else
    let e := ilog2 n d - 52 in
    {| mant := if 0 <=? e then rne n (d * 2 ^ e) else rne (n * 2 ^ (- e)) d;
       expo := e |}.

(** [a / b] on two [int]s, [b] positive: the correctly rounded quotient. *)
Definition true_divide (a b : Z) : t := round a b.

(** [x * k] for a float [x] and an [int] [k] that converts exactly. *)
Definition mul_int (x : t) (k : Z) : t :=
  if 0 <=? expo x then round (mant x * 2 ^ expo x * k) 1
  else round (mant x * k) (2 ^ (- expo x)).

(** [int(x)]: truncation. *)
Definition to_int (x : t) : Z :=
  if 0 <=? expo x then mant x * 2 ^ expo x
  else mant x / 2 ^ (- expo x).

(** [x] is not negative and not above the integer [J]. *)
Definition at_most (x : t) (J : Z) : Prop :=
  0 <= mant x /\ expo x <= 0 /\ mant x <= J * 2 ^ (- expo x).

(** The same product with the binary64 operations of the IEEE 754
    specification of the Standard Library, and the comparison of a double of
    this module with one of that specification. *)
Definition binary64 (n : Z) : spec_float := binary_normalize 53 1024 n 0 false.

Definition ieee_product (a b : Z) : spec_float :=
  SFmul 53 1024 (SFdiv 53 1024 (binary64 a) (binary64 b)) (binary64 100).

Definition same_number (x : t) (y : spec_float) : bool :=
  match y with
  | S754_zero _ => mant x =? 0
  | S754_finite false m e =>
      let k := Z.min (expo x) e in
      mant x * 2 ^ (expo x - k) =? Z.pos m * 2 ^ (e - k)
  | _ => false
  end.

End float.

(** ** The Python runtime

    [lower_nonascii before c after] is the lowercase form of a code point
    [c] above U+007F standing between [before] (nearest code point first)
    and [after]; [decimal_nonascii c] is the value of [c] when it is a
    decimal digit above U+007F; [int_max_str_digits] is the digit limit of
    [int], 0 for none. *)
Record runtime := {
  lower_nonascii : str -> char -> str -> str;
  decimal_nonascii : char -> option Z;
  int_max_str_digits : nat;
}.

(** The three sections of the heuristic scan: the values ['correct'],
    ['missed'] and ['wrong'] of [current_section]; [None] is no section. *)
Inductive section_name := correct | missed | wrong.

Record scan_state := {
  current_section : option section_name;
  correct_points : list str;
  missed_points : list str;
  wrong_points : list str;
}.

(** The tuple [(accuracy_score, correct_points, missed_points, wrong_points)]. *)
Definition comparison : Type := value * value * value * value.

(** A service object: [self.model] is [None] without an API key, else a
    client whose [generate_content(prompt).text] returns text or raises. *)
Record TextComparisonService := {
  model : option (str -> result str);
}.

Section Service.

Variable rt : runtime.

(** *** Built-in string functions that consult the Unicode database *)

Definition lower_ascii (c : char) : char :=
  if ((65 <=? c) && (c <=? 90))%N then (c + 32)%N else c.

Fixpoint lower_from (before s : str) : str :=
  match s with
  | [] => []
  | c :: s' =>
      (if (c <? 128)%N then [lower_ascii c] else lower_nonascii rt before c s')
        ++ lower_from (c :: before) s'
  end.

(** [s.lower()] *)
Definition lower (s : str) : str := lower_from [] s.

(** The decimal value of a code point, if it is a decimal digit. *)
Definition decimal (c : char) : option Z :=
  if (c <? 128)%N
  then if json.is_digit c then Some (Z.of_N c - 48) else None
  else decimal_nonascii rt c.

Definition isdecimal (c : char) : bool :=
  match decimal c with Some _ => true | None => false end.

Fixpoint digits_value (acc : Z) (ds : str) : option Z :=
  match ds with
  | [] => Some acc
  | c :: ds' =>
      match decimal c with
      | Some d => digits_value (10 * acc + d) ds'
      | None => None
      end
  end.

(** [int(s)] for [s] an optional minus sign followed by decimal digits,
    the only strings that the service and the decoder convert.  Above 640
    digits the limit of the runtime applies. *)
Definition int (s : str) : result Z :=
  let '(neg, ds) := match json.expect 45%N s with
                    | Some r => (true, r)
                    | None => (false, s)
                    end in
  if ((640 <? length ds) && (0 <? int_max_str_digits rt)
      && (int_max_str_digits rt <? length ds))%nat
  then Raise ValueError
  else match ds, digits_value 0 ds with
       | _ :: _, Some n => Ok (if neg then - n else n)
       | _, _ => Raise ValueError
       end.

(** *** The two regular expressions *)

(** The longest prefix of [s] that ends with [c]. *)
Fixpoint upto_last (c : char) (s : str) : option str :=
  match s with
  | [] => None
  | d :: s' =>
      match upto_last c s' with
      | Some p => Some (d :: p)
      | None => if (d =? c)%N then Some [d] else None
      end
  end.

(** [re.search(r'\{.*\}', s, re.DOTALL)]: the match starts at the first
    opening brace and, the star being greedy and the dot matching every
    character, ends at the last closing brace after it. *)
Fixpoint search_braces (s : str) : option str :=
  match s with
  | [] => None
  | c :: s' =>
      if (c =? 123)%N then
        match upto_last 125%N s' with
        | Some p => Some (c :: p)
        | None => search_braces s'
        end
      else search_braces s'
  end.

(** A lowercase ASCII letter of a pattern against a character of the text
    under [re.IGNORECASE]: the letter, its capital and, for the letter s,
    U+017F.  (The letters i and k, which have further matches, do not
    occur in the pattern below.) *)
Definition imatch (p c : char) : bool :=
  ((c =? p) || (c =? p - 32) || ((p =? 115) && (c =? 383)))%N.

Fixpoint match_letters (pat s : str) : option str :=
  match pat, s with
  | [], _ => Some s
  | _ :: _, [] => None
  | p :: pat', c :: s' => if imatch p c then match_letters pat' s' else None
  end.

Fixpoint span (f : char -> bool) (s : str) : str * str :=
  match s with
  | c :: s' => if f c then let '(a, b) := span f s' in (c :: a, b) else ([], s)
  | [] => ([], [])
  end.

(** The pattern [accuracy[_\s]?score[:\s]*(\d+)] at the start of [s]; the
    result is group 1.  No character of the optional or of the starred
    class can start what follows the class (an underscore, a colon or a
    white space is neither a letter nor a digit), so the greedy choice is
    the only match. *)
Definition match_score (s : str) : option str :=
  s1 ← match_letters (u "accuracy") s;
  let s2 := match s1 with
            | c :: r => if (c =? 95)%N || isspace c then r else s1
            | [] => s1
            end in
  s3 ← match_letters (u "score") s2;
  let '(_, s4) := span (fun c => (c =? 58)%N || isspace c) s3 in
  match span isdecimal s4 with
  | ([], _) => None
  | (ds, _) => Some ds
  end.

(** [re.search(r'accuracy[_\s]?score[:\s]*(\d+)', s, re.IGNORECASE)]:
    group 1 of the leftmost match. *)
Fixpoint search_score (s : str) : option str :=
  match match_score s with
  | Some ds => Some ds
  | None => match s with
            | [] => None
            | _ :: s' => search_score s'
            end
  end.

(** *** [TextComparisonService] *)

Definition is_available (self : TextComparisonService) : bool :=
  match model self with Some _ => true | None => false end.

Definition mode_descriptions : list (str * str) :=
  [ (u "skimming", u "Quick overview focusing on main ideas and key points");
    (u "comprehension", u "Understanding check and verification of key concepts");
    (u "study", u "Educational focus with detailed analysis of learning objectives");
    (u "review", u "Revision and retention focus with emphasis on important details");
    (u "summary", u "Summary generation and evaluation with focus on conciseness");
    (u "detailed", u "Comprehensive analysis of all content and details");
    (u "critical", u "Analysis and evaluation of arguments and evidence");
    (u "comparison", u "Compare multiple texts or versions with emphasis on differences") ].

Fixpoint mode_get (d : list (str * str)) (k : str) (dflt : str) : str :=
  match d with
  | [] => dflt
  | (k', v) :: d' => if str_eqb k' k then v else mode_get d' k dflt
  end.

(** The mode description is looked up and the prompt does not use it. *)
Definition _create_comparison_prompt (original_text summary_text reading_mode : str) : str :=
  let mode_desc :=
    mode_get mode_descriptions reading_mode
      (mode_get mode_descriptions (u "detailed") []) in
  u "
You are an expert text analyst. Compare the original text with the user's summary and provide a detailed analysis.


**Original Text**:
" ++ original_text ++ u "

**User's Summary**:
" ++ summary_text ++ u "

**Analysis Instructions**:
1. Evaluate how well the summary captures the key points from the original text
2. Provide an accuracy score from 0 to 100
3. Identify correctly captured points
4. Identify important points that were missed
5. Identify any incorrect or misleading information

**Response Format**:
Please respond in the following JSON format:

{
    `accuracy_score`: <0-100>,
    `correct_points`: [
        `Point 1 description`,
        `Point 2 description`
    ],
    `missed_points`: [
        `Important point that was missed`,
        `Another missed point`
    ],
    `wrong_points`: [
        `Incorrect information in summary`,
        `Misleading statement`
    ]
}

**Guidelines**:
- Be objective and fair in your assessment
- Focus on the most important points for the given reading mode
- Provide specific, actionable feedback
- Consider the context and purpose of the reading mode
- Accuracy score should reflect overall quality and completeness
".

(** One turn of the loop [for line in lines] of [_fallback_parsing]. *)
Definition has_keyword (line kw : str) : bool := contains (lower line) kw.

Definition is_bullet (line : str) : bool :=
  startswith line (u "-") || startswith line [BULLET] || startswith line (u "*").

Definition set_section (st : scan_state) (s : section_name) : scan_state :=
  {| current_section := Some s;
     correct_points := correct_points st;
     missed_points := missed_points st;
     wrong_points := wrong_points st |}.

Definition append_point (st : scan_state) (s : section_name) (point : str) : scan_state :=
  match s with
  | correct =>
      {| current_section := current_section st;
         correct_points := correct_points st ++ [point];
         missed_points := missed_points st;
         wrong_points := wrong_points st |}
  | missed =>
      {| current_section := current_section st;
         correct_points := correct_points st;
         missed_points := missed_points st ++ [point];
         wrong_points := wrong_points st |}
  | wrong =>
      {| current_section := current_section st;
         correct_points := correct_points st;
         missed_points := missed_points st;
         wrong_points := wrong_points st ++ [point] |}
  end.

Definition scan_line (st : scan_state) (raw_line : str) : scan_state :=
  let line := strip raw_line in
  match line with
  | [] => st
  | _ :: _ =>
      if has_keyword line (u "correct") || has_keyword line (u "good")
         || has_keyword line (u "accurate")
      then set_section st correct
      else if has_keyword line (u "missed") || has_keyword line (u "missing")
      then set_section st missed
      else if has_keyword line (u "wrong") || has_keyword line (u "incorrect")
              || has_keyword line (u "error")
      then set_section st wrong
      else if is_bullet line then
        let point := strip (drop 1 line) in
        match point, current_section st with
        | _ :: _, Some s => append_point st s point
        | _, _ => st
        end
      else st
  end.

Definition scan_start : scan_state :=
  {| current_section := None;
     correct_points := []; missed_points := []; wrong_points := [] |}.

Definition str_list (l : list str) : value := VList (map VStr l).

(** The score that [_fallback_parsing] starts from: 50, or the number
    that follows the first accuracy score label. *)
Definition seed_score (response_text : str) : result Z :=
  match search_score response_text with
  | Some digits => int digits
  | None => Ok 50
  end.

Definition _fallback_parsing (response_text : str) : result comparison :=
  try_except
    (accuracy_score ← seed_score response_text;
     let lines := split_on LF response_text in
     let st := fold_left scan_line lines scan_start in
     Ok (VInt accuracy_score, str_list (correct_points st),
         str_list (missed_points st), str_list (wrong_points st)))
    (fun _ => Ok (VInt 50, VList [], VList [], VList [])).

Definition _parse_comparison_response (response_text : str) : result comparison :=
  try_except
    (match search_braces response_text with
     | Some json_str =>
         data ← json.loads int json_str;
         accuracy_score ← py_get data (u "accuracy_score") (VInt 0);
         correct_points ← py_get data (u "correct_points") (VList []);
         missed_points ← py_get data (u "missed_points") (VList []);
         wrong_points ← py_get data (u "wrong_points") (VList []);
         Ok (accuracy_score, correct_points, missed_points, wrong_points)
     | None => _fallback_parsing response_text
     end)
    (fun _ => _fallback_parsing response_text).

(** The value of [int((overlap / total_original) * 100)]. *)
Definition percent (overlap total_original : Z) : Z :=
  float.to_int (float.mul_int (float.true_divide overlap total_original) 100).

Definition words (text : str) : gset str := list_to_set (split_ws (lower text)).

Definition _simple_comparison (original_text summary_text : str) : result comparison :=
  try_except
    (let original_words := words original_text in
     let summary_words := words summary_text in
     let overlap := Z.of_nat (size (original_words ∩ summary_words)) in
     let total_original := Z.of_nat (size original_words) in
     let accuracy_score :=
       if 0 <? total_original
       then Z.min 100 (percent overlap total_original)
       else 50 in
     Ok (VInt accuracy_score,
         str_list [u "Basic content overlap detected"],
         str_list [u "Detailed analysis not available"],
         str_list []))
    (fun _ => Ok (VInt 50, VList [], VList [], VList [])).

(** [self.model.generate_content(prompt).text] *)
Definition generate_content (self : TextComparisonService) (prompt : str) : result str :=
  match model self with
  | Some client => client prompt
  | None => Raise AttributeError
  end.

(** The body of the [try] block of [compare_texts]. *)
Definition model_tier (self : TextComparisonService)
    (original_text summary_text reading_mode : str) : result comparison :=
  let prompt :=
    _create_comparison_prompt original_text summary_text reading_mode in
  response_text ← generate_content self prompt;
  _parse_comparison_response response_text.

Definition compare_texts (self : TextComparisonService)
    (original_text summary_text reading_mode : str) : result comparison :=
  if negb (is_available self)
  then _simple_comparison original_text summary_text
  else
    try_except
      (model_tier self original_text summary_text reading_mode)
      (fun _ => _simple_comparison original_text summary_text).

End Service.

(** ** Vocabulary of the properties *)

(** A runtime that knows no case mapping and no digit above U+007F, with
    the default digit limit of CPython; on ASCII text every runtime agrees
    with it. *)
Definition ascii_runtime : runtime :=
  {| lower_nonascii := fun _ c _ => [c];
     decimal_nonascii := fun _ => None;
     int_max_str_digits := 4300 |}.

(** An [int] between 0 and 100. *)
Definition is_score (v : value) : Prop :=
  match v with
  | VInt n => 0 <= n <= 100
  | _ => False
  end.

(** A [list] whose items are all [str]. *)
Definition is_str_list (v : value) : bool :=
  match v with
  | VList items => forallb (fun x => match x with VStr _ => true | _ => false end) items
  | _ => false
  end.

Definition points_of (s : section_name) (st : scan_state) : list str :=
  match s with
  | correct => correct_points st
  | missed => missed_points st
  | wrong => wrong_points st
  end.

(** The three keyword tests of the scan on a stripped line. *)
Definition says_correct (rt : runtime) (line : str) : bool :=
  has_keyword rt line (u "correct") || has_keyword rt line (u "good")
  || has_keyword rt line (u "accurate").

Definition says_missed (rt : runtime) (line : str) : bool :=
  has_keyword rt line (u "missed") || has_keyword rt line (u "missing").

Definition says_wrong (rt : runtime) (line : str) : bool :=
  has_keyword rt line (u "wrong") || has_keyword rt line (u "incorrect")
  || has_keyword rt line (u "error").

(** Structured extraction fails on [text]: no brace-delimited substring, or
    one that [json.loads] rejects. *)
Definition undecodable (rt : runtime) (text : str) : bool :=
  match search_braces text with
  | Some json_str =>
      match json.loads (int rt) json_str with
      | Ok _ => false
      | Raise _ => true
      end
  | None => true
  end.

Definition no_bullets (text : str) : bool :=
  forallb (fun line => negb (is_bullet (strip line))) (split_on LF text).

(** The score of the local overlap scorer as the specification words it:
    [min(100, round(100 * overlap / total))], 50 for an empty reference. *)
Definition spec_overlap_score (overlap total : Z) : Z :=
  if 0 <? total then Z.min 100 (float.rne (100 * overlap) total) else 50.

(** The placeholder points of the local overlap scorer. *)
Definition placeholder_correct : value := str_list [u "Basic content overlap detected"].
Definition placeholder_missed : value := str_list [u "Detailed analysis not available"].

(** ** The constructor, and vocabulary of further properties *)

(** [TextComparisonService()]: [GOOGLE_API_KEY] is the value of
    [os.getenv("GOOGLE_API_KEY")], [None] when the variable is not set;
    [genai key name] is the client that [genai.GenerativeModel(name)] gives
    after [genai.configure(api_key=key)]. *)
Definition __init__ (GOOGLE_API_KEY : option str)
    (genai : str -> str -> str -> result str) : TextComparisonService :=
  match GOOGLE_API_KEY with
  | Some (c :: key) => {| model := Some (genai (c :: key) (u "gemma-3n-e4b-it")) |}
  | _ => {| model := None |}
  end.

(** No section keyword in a stripped line. *)
Definition keyword_free (rt : runtime) (line : str) : bool :=
  negb (says_correct rt line || says_missed rt line || says_wrong rt line).

(** [point] is what a bullet line without keyword among [lines] gives. *)
Definition from_bullet (rt : runtime) (lines : list str) (point : str) : Prop :=
  exists raw_line, raw_line ∈ lines /\
    is_bullet (strip raw_line) = true /\
    keyword_free rt (strip raw_line) = true /\
    point = strip (drop 1 (strip raw_line)) /\ point <> [].

(** The decimal digits of the runtime have the values 0 to 9. *)
Definition sane_digits (rt : runtime) : Prop :=
  forall c d, decimal_nonascii rt c = Some d -> 0 <= d <= 9.

(** The digit limit of [int] applies to a run of [n] digits. *)
Definition over_digit_limit (rt : runtime) (n : nat) : bool :=
  ((640 <? n) && (0 <? int_max_str_digits rt) && (int_max_str_digits rt <? n))%nat.

(** What a bullet line leaves: the line without its marker, stripped. *)
Definition bullet_text (raw_line : str) : str := strip (drop 1 (strip raw_line)).

(** A double of module [float] as a fraction, and the order of two
    doubles. *)
Definition float_num (x : float.t) : Z := float.mant x * 2 ^ Z.max 0 (float.expo x).
Definition float_den (x : float.t) : Z := 2 ^ Z.max 0 (- float.expo x).
Definition float_le (x y : float.t) : Prop :=
  float_num x * float_den y <= float_num y * float_den x.

(** * Properties *)

(** ** Rounding to double precision *)
Section float_facts.
Import float.

Lemma rne_nonneg n d : 0 <= n -> 0 < d -> 0 <= rne n d.
Proof.
  intros Hn Hd. unfold rne.
  assert (0 <= n / d) by (apply Z.div_pos; lia).
  repeat case_match; lia.
Qed.

(** Rounding does not cross an integer. *)
Lemma rne_le n d J : 0 <= n -> 0 < d -> n <= J * d -> rne n d <= J.
Proof.
  intros Hn Hd HJ. unfold rne.
  pose proof (Z.div_mod n d ltac:(lia)) as Hdm.
  pose proof (Z.mod_pos_bound n d Hd) as Hr.
  assert (n / d <= J) by (apply Z.div_le_upper_bound; lia).
  destruct (Z.ltb_spec (2 * (n mod d)) d); [lia|].
  assert (n / d <> J) by nia.
  repeat case_match; lia.
Qed.

Lemma rne_exact q d : 0 < d -> rne (q * d) d = q.
Proof.
  intros Hd. unfold rne.
  rewrite Z.div_mul, Z.mod_mul by lia.
  destruct (Z.ltb_spec (2 * 0) d); lia.
Qed.

Lemma ilog2_le n d : 0 < n -> 0 < d -> n <= 128 * d -> ilog2 n d <= 7.
Proof.
  intros Hn Hd Hle. unfold ilog2.
  assert (Z.log2 n <= 7 + Z.log2 d).
  { rewrite <- (Z.log2_mul_pow2 d 7) by lia.
    apply Z.log2_le_mono. change (2 ^ 7) with 128. lia. }
  repeat case_match; lia.
Qed.

Lemma ilog2_same n : 0 < n -> ilog2 n n = 0.
Proof.
  intros Hn. unfold ilog2. rewrite Z.sub_diag. simpl (0 <=? 0).
  change (2 ^ 0) with 1. rewrite Z.mul_1_r.
  destruct (Z.leb_spec n n); [reflexivity | lia].
Qed.

Lemma round_at_most n d J :
  0 <= n -> 0 < d -> 1 <= J <= 128 -> n <= J * d -> at_most (round n d) J.
Proof.
  intros Hn Hd HJ Hle. unfold round, at_most.
  destruct (Z.eqb_spec n 0) as [->|Hn0]; simpl.
  - change (2 ^ (- 0)) with 1. lia.
  - pose proof (ilog2_le n d ltac:(lia) Hd ltac:(nia)) as He.
    destruct (Z.leb_spec 0 (ilog2 n d - 52)); [lia|].
    assert (0 < 2 ^ (- (ilog2 n d - 52))) by (apply Z.pow_pos_nonneg; lia).
    split; [apply rne_nonneg; nia|].
    split; [lia|].
    apply rne_le; nia.
Qed.

Lemma mul_int_at_most x J :
  at_most x 1 -> 1 <= J <= 128 -> at_most (mul_int x J) J.
Proof.
  intros (Hm & He & Hb) HJ. unfold mul_int.
  destruct (Z.leb_spec 0 (expo x)).
  - replace (expo x) with 0 in * by lia.
    change (2 ^ (- 0)) with 1 in Hb. change (2 ^ 0) with 1.
    apply round_at_most; nia.
  - assert (0 < 2 ^ (- expo x)) by (apply Z.pow_pos_nonneg; lia).
    apply round_at_most; nia.
Qed.

Lemma to_int_at_most x J : at_most x J -> 0 <= to_int x <= J.
Proof.
  intros (Hm & He & Hb). unfold to_int.
  destruct (Z.leb_spec 0 (expo x)).
  - replace (expo x) with 0 in * by lia.
    change (2 ^ (- 0)) with 1 in Hb. change (2 ^ 0) with 1. lia.
  - assert (0 < 2 ^ (- expo x)) by (apply Z.pow_pos_nonneg; lia).
    split; [apply Z.div_pos; lia|].
    apply Z.div_le_upper_bound; lia.
Qed.

Lemma true_divide_same n :
  0 < n -> true_divide n n = {| mant := 2 ^ 52; expo := -52 |}.
Proof.
  intros Hn. unfold true_divide, round.
  destruct (Z.eqb_spec n 0); [lia|].
  rewrite ilog2_same by lia.
  change (0 <=? 0 - 52) with false. cbv iota.
  change (- (0 - 52)) with 52. change (0 - 52) with (-52).
  f_equal. rewrite (Z.mul_comm n). apply rne_exact. lia.
Qed.

End float_facts.

(** ** The percentage of the local overlap scorer *)

Lemma percent_bounds a b : 0 <= a <= b -> 0 < b -> 0 <= percent a b <= 100.
Proof.
  intros Hab Hb. unfold percent.
  apply to_int_at_most, mul_int_at_most; [|lia].
  apply round_at_most; lia.
Qed.

Lemma percent_all n : 0 < n -> percent n n = 100.
Proof.
  intros Hn. unfold percent. rewrite true_divide_same by lia. reflexivity.
Qed.

Lemma percent_none b : percent 0 b = 0.
Proof. reflexivity. Qed.

(** Double rounding shows: 29 words of 100 give 28, and 2 of 3 give 66. *)
Example percent_29_of_100 : percent 29 100 = 28 /\ percent 2 3 = 66.
Proof. split; reflexivity. Qed.

(** On every overlap of at most 120 words the product computed here is the
    one that the IEEE 754 operations of the Standard Library compute. *)
Example percent_is_binary64 :
  forallb (fun b =>
    forallb (fun a =>
      float.same_number (float.mul_int (float.true_divide a b) 100)
                        (float.ieee_product a b))
      (seqZ 0 (b + 1)))
    (seqZ 1 120) = true.
Proof. vm_compute. reflexivity. Qed.

(** ** The local overlap scorer *)

Lemma simple_comparison_eq rt original_text summary_text :
  _simple_comparison rt original_text summary_text =
  Ok (VInt (let overlap := Z.of_nat (size (words rt original_text ∩ words rt summary_text)) in
            let total := Z.of_nat (size (words rt original_text)) in
            if 0 <? total then Z.min 100 (percent overlap total) else 50),
      placeholder_correct, placeholder_missed, VList []).
Proof. reflexivity. Qed.

Lemma overlap_le_total (A B : gset (list N)) :
  0 <= Z.of_nat (size (A ∩ B)) <= Z.of_nat (size A).
Proof.
  split; [lia|]. apply inj_le, subseteq_size, intersection_subseteq_l.
Qed.

Lemma words_nonempty_size (A : gset (list N)) : A ≠ ∅ -> 0 < Z.of_nat (size A).
Proof.
  intros HA. destruct (size A) eqn:E; [|lia].
  apply size_empty_iff in E. destruct HA. by apply leibniz_equiv.
Qed.

(** C10: for every pair of texts the overlap is at most the size of the
    reference word set, because the intersection is a subset of it; hence
    with a non-empty reference the percentage is in [0,100] before the
    clamp and [min(100, .)] changes nothing; with an empty reference the
    score is the constant 50; in both cases the score returned is in
    [0,100]. *)
Theorem overlap_score_in_range (rt : runtime) (original_text summary_text : str) :
  let original_words := words rt original_text in
  let summary_words := words rt summary_text in
  let overlap := Z.of_nat (size (original_words ∩ summary_words)) in
  let total := Z.of_nat (size original_words) in
  original_words ∩ summary_words ⊆ original_words /\
  0 <= overlap <= total /\
  (0 < total ->
     0 <= percent overlap total <= 100 /\
     Z.min 100 (percent overlap total) = percent overlap total /\
     _simple_comparison rt original_text summary_text =
       Ok (VInt (percent overlap total), placeholder_correct, placeholder_missed, VList [])) /\
  (total = 0 ->
     _simple_comparison rt original_text summary_text =
       Ok (VInt 50, placeholder_correct, placeholder_missed, VList [])) /\
  (exists n, 0 <= n <= 100 /\
     _simple_comparison rt original_text summary_text =
       Ok (VInt n, placeholder_correct, placeholder_missed, VList [])).
Proof.
  intros A B overlap total.
  pose proof (overlap_le_total A B) as Hle. fold overlap total in Hle.
  assert (Hpos : 0 < total -> 0 <= percent overlap total <= 100)
    by (intros; apply percent_bounds; lia).
  assert (Hcode : _simple_comparison rt original_text summary_text =
            Ok (VInt (if 0 <? total then Z.min 100 (percent overlap total) else 50),
                placeholder_correct, placeholder_missed, VList []))
    by apply simple_comparison_eq.
  split; [apply intersection_subseteq_l|].
  split; [exact Hle|].
  split; [|split].
  - intros Ht. specialize (Hpos Ht).
    assert (Hmin : Z.min 100 (percent overlap total) = percent overlap total) by lia.
    repeat split; try lia.
    rewrite Hcode. destruct (Z.ltb_spec 0 total); [|lia]. by rewrite Hmin.
  - intros Ht. rewrite Hcode. destruct (Z.ltb_spec 0 total); [lia|done].
  - destruct (Z.ltb_spec 0 total) as [Ht|Ht].
    + exists (percent overlap total). split; [by apply Hpos|].
      rewrite Hcode. destruct (Z.ltb_spec 0 total); [|lia].
      f_equal. f_equal. f_equal. f_equal. f_equal. specialize (Hpos Ht). lia.
    + exists 50. split; [lia|].
      rewrite Hcode. destruct (Z.ltb_spec 0 total); [lia|done].
Qed.

Lemma overlap_score_in_range_witness :
  0 <= percent 2 3 <= 100 /\ Z.min 100 (percent 2 3) = percent 2 3 /\
  _simple_comparison ascii_runtime (u "a b c") (u "b a") =
    Ok (VInt (percent 2 3), placeholder_correct, placeholder_missed, VList []).
Proof.
  pose proof (overlap_score_in_range ascii_runtime (u "a b c") (u "b a")) as H.
  cbv zeta in H. destruct H as (_ & _ & H & _).
  apply H. vm_compute. reflexivity.
Defined.

(** C4, as amended: the local overlap scorer turns both texts into sets of
    lowercase whitespace-delimited words, takes the size of their
    intersection as the overlap, and returns
    [min(100, int((overlap / total) * 100))], the quotient and the product
    rounded to double precision and the result truncated, when the reference
    set is non-empty, and 50 when it is empty; identical texts with at least
    one word score 100, disjoint vocabularies with a non-empty reference
    score 0, and a reference without words, the empty text among them,
    scores 50. *)
Theorem local_overlap_score (rt : runtime) (original_text summary_text : str) :
  let original_words := words rt original_text in
  let summary_words := words rt summary_text in
  let overlap := Z.of_nat (size (original_words ∩ summary_words)) in
  let total := Z.of_nat (size original_words) in
  let scored n := Ok (VInt n, placeholder_correct, placeholder_missed, VList []) in
  (forall w, w ∈ original_words <-> w ∈ split_ws (lower rt original_text)) /\
  (forall w, w ∈ summary_words <-> w ∈ split_ws (lower rt summary_text)) /\
  _simple_comparison rt original_text summary_text =
    scored (if 0 <? total
            then Z.min 100 (float.to_int (float.mul_int (float.true_divide overlap total) 100))
            else 50) /\
  (original_words ≠ ∅ -> _simple_comparison rt original_text original_text = scored 100) /\
  (original_words ≠ ∅ -> original_words ∩ summary_words = ∅ ->
     _simple_comparison rt original_text summary_text = scored 0) /\
  (original_words = ∅ -> _simple_comparison rt original_text summary_text = scored 50) /\
  _simple_comparison rt [] summary_text = scored 50.
Proof.
  intros A B overlap total scored.
  split; [intros w; apply elem_of_list_to_set|].
  split; [intros w; apply elem_of_list_to_set|].
  split; [apply simple_comparison_eq|].
  split; [|split; [|split]].
  - intros HA. rewrite simple_comparison_eq. cbv zeta.
    fold A. rewrite (idemp_L (∩) A).
    pose proof (words_nonempty_size A HA) as Hpos.
    destruct (Z.ltb_spec 0 (Z.of_nat (size A))); [|lia].
    by rewrite percent_all.
  - intros HA Hdisj. rewrite simple_comparison_eq. cbv zeta.
    fold A B. rewrite Hdisj, size_empty.
    pose proof (words_nonempty_size A HA) as Hpos.
    destruct (Z.ltb_spec 0 (Z.of_nat (size A))); [|lia].
    reflexivity.
  - intros HA. rewrite simple_comparison_eq. cbv zeta.
    fold A. rewrite HA, size_empty. reflexivity.
  - reflexivity.
Qed.

Lemma local_overlap_score_witness :
  _simple_comparison ascii_runtime (u "The cat sat") (u "The cat sat") =
    Ok (VInt 100, placeholder_correct, placeholder_missed, VList []) /\
  _simple_comparison ascii_runtime (u "The cat sat") (u "a dog") =
    Ok (VInt 0, placeholder_correct, placeholder_missed, VList []) /\
  _simple_comparison ascii_runtime (u "  ") (u "a dog") =
    Ok (VInt 50, placeholder_correct, placeholder_missed, VList []).
Proof.
  pose proof (local_overlap_score ascii_runtime (u "The cat sat") (u "a dog")) as H1.
  pose proof (local_overlap_score ascii_runtime (u "  ") (u "a dog")) as H2.
  cbv zeta in H1, H2.
  destruct H1 as (_ & _ & _ & Hsame & Hdisj & _).
  destruct H2 as (_ & _ & _ & _ & _ & Hempty & _).
  split; [|split].
  - apply Hsame. vm_compute. discriminate.
  - apply Hdisj; [vm_compute; discriminate | vm_compute; reflexivity].
  - apply Hempty. vm_compute. reflexivity.
Defined.

(** C4, as stated, fails: with three reference words of which the
    candidate has two the code returns 66, and the rounded percentage of the
    specification is 67. *)
Lemma local_overlap_score_not_rounded :
  size (words ascii_runtime (u "a b c") ∩ words ascii_runtime (u "a b")) = 2%nat /\
  size (words ascii_runtime (u "a b c")) = 3%nat /\
  _simple_comparison ascii_runtime (u "a b c") (u "a b") =
    Ok (VInt 66, placeholder_correct, placeholder_missed, VList []) /\
  spec_overlap_score 2 3 = 67.
Proof. repeat split. Qed.

(** ** The heuristic line scan *)

Lemma scan_line_eq rt st raw_line :
  strip raw_line <> [] ->
  scan_line rt st raw_line =
    let line := strip raw_line in
    if says_correct rt line then set_section st correct
    else if says_missed rt line then set_section st missed
    else if says_wrong rt line then set_section st wrong
    else if is_bullet line then
      match strip (drop 1 line), current_section st with
      | _ :: _, Some s => append_point st s (strip (drop 1 line))
      | _, _ => st
      end
    else st.
Proof.
  intros Hne. unfold scan_line, says_correct, says_missed, says_wrong.
  destruct (strip raw_line); [contradiction | reflexivity].
Qed.

Lemma points_of_set_section st s s' : points_of s' (set_section st s) = points_of s' st.
Proof. by destruct s'. Qed.

Lemma points_of_append_same st s p : points_of s (append_point st s p) = points_of s st ++ [p].
Proof. by destruct s. Qed.

Lemma points_of_append_other st s s' p :
  s' <> s -> points_of s' (append_point st s p) = points_of s' st.
Proof. by destruct s, s'. Qed.

Lemma current_section_append st s p : current_section (append_point st s p) = current_section st.
Proof. by destruct s. Qed.

Lemma scan_line_blank rt st raw_line : strip raw_line = [] -> scan_line rt st raw_line = st.
Proof. intros E. unfold scan_line. by rewrite E. Qed.

Lemma says_nothing_blank rt :
  says_correct rt [] = false /\ says_missed rt [] = false /\ says_wrong rt [] = false.
Proof. repeat split. Qed.

(** C9: on every line the keyword tests come first and in a fixed order.
    If the lowercase form of the stripped line contains correct, good or
    accurate, the section becomes correct; else, if it contains missed or
    missing, the section becomes missed; else, if it contains wrong,
    incorrect or error, the section becomes wrong; in each of these cases
    the three lists stay as they are, also when the line begins with a
    bullet marker.  So a list changes only on a line with none of the
    keywords that begins with a bullet marker, and such a line leaves the
    section as it is. *)
Theorem keyword_precedence (rt : runtime) (st : scan_state) (raw_line : str) :
  let line := strip raw_line in
  let low := lower rt line in
  let says_correct :=
    contains low (u "correct") || contains low (u "good") || contains low (u "accurate") in
  let says_missed := contains low (u "missed") || contains low (u "missing") in
  let says_wrong :=
    contains low (u "wrong") || contains low (u "incorrect") || contains low (u "error") in
  let bullet :=
    startswith line (u "-") || startswith line [BULLET] || startswith line (u "*") in
  let st' := scan_line rt st raw_line in
  let switched_to s :=
    current_section st' = Some s /\
    st' = {| current_section := Some s; correct_points := correct_points st;
             missed_points := missed_points st; wrong_points := wrong_points st |} in
  (says_correct = true -> switched_to correct) /\
  (says_correct = false -> says_missed = true -> switched_to missed) /\
  (says_correct = false -> says_missed = false -> says_wrong = true ->
     switched_to wrong) /\
  (says_correct || says_missed || says_wrong = true ->
     correct_points st' = correct_points st /\
     missed_points st' = missed_points st /\
     wrong_points st' = wrong_points st) /\
  (correct_points st' <> correct_points st \/
   missed_points st' <> missed_points st \/
   wrong_points st' <> wrong_points st ->
     says_correct = false /\ says_missed = false /\ says_wrong = false /\
     bullet = true /\ current_section st' = current_section st).
Proof.
  intros line low sc sm sw bullet st' switched_to.
  change sc with (says_correct rt line) in *.
  change sm with (says_missed rt line) in *.
  change sw with (says_wrong rt line) in *.
  change bullet with (is_bullet line) in *.
  subst switched_to st'. cbv beta.
  destruct (list_eq_nil_dec line) as [E|Hne].
  - rewrite (scan_line_blank rt st raw_line E). fold line. rewrite E.
    destruct (says_nothing_blank rt) as (-> & -> & ->).
    split; [discriminate|]. split; [discriminate|]. split; [discriminate|].
    split; [discriminate|]. by intros [?|[?|?]].
  - rewrite (scan_line_eq rt st raw_line Hne). fold line. cbv zeta.
    split; [by intros ->|].
    split; [by intros -> ->|].
    split; [by intros -> -> ->|].
    split.
    + intros Hkw.
      destruct (says_correct rt line); [done|].
      destruct (says_missed rt line); [done|].
      destruct (says_wrong rt line); [done|].
      discriminate.
    + intros Hs.
      destruct (says_correct rt line); [by destruct Hs as [?|[?|?]]|].
      destruct (says_missed rt line); [by destruct Hs as [?|[?|?]]|].
      destruct (says_wrong rt line); [by destruct Hs as [?|[?|?]]|].
      destruct (is_bullet line); [|by destruct Hs as [?|[?|?]]].
      repeat split.
      destruct (strip (drop 1 line)), (current_section st) eqn:Es;
        try (by destruct Hs as [?|[?|?]]).
      by rewrite current_section_append.
Qed.

Lemma keyword_precedence_witness :
  let st := {| current_section := Some missed; correct_points := [];
               missed_points := [u "first"]; wrong_points := [] |} in
  scan_line ascii_runtime st (u "- a good point") =
    {| current_section := Some correct; correct_points := [];
       missed_points := [u "first"]; wrong_points := [] |} /\
  scan_line ascii_runtime
    {| current_section := Some wrong; correct_points := [];
       missed_points := [u "first"]; wrong_points := [] |}
    (u "* nothing Missing here, no error") =
    {| current_section := Some missed; correct_points := [];
       missed_points := [u "first"]; wrong_points := [] |} /\
  scan_line ascii_runtime st (u "- an Error") =
    {| current_section := Some wrong; correct_points := [];
       missed_points := [u "first"]; wrong_points := [] |} /\
  missed_points (scan_line ascii_runtime st (u "- a good point")) = [u "first"] /\
  current_section (scan_line ascii_runtime st (u "- second")) = Some missed.
Proof.
  intros st.
  destruct (keyword_precedence ascii_runtime st (u "- a good point"))
    as (H1 & _ & _ & H4 & _).
  destruct (keyword_precedence ascii_runtime
              {| current_section := Some wrong; correct_points := [];
                 missed_points := [u "first"]; wrong_points := [] |}
              (u "* nothing Missing here, no error")) as (_ & H2 & _).
  destruct (keyword_precedence ascii_runtime st (u "- an Error")) as (_ & _ & H3 & _).
  destruct (keyword_precedence ascii_runtime st (u "- second")) as (_ & _ & _ & _ & H5).
  split; [apply (H1 eq_refl)|].
  split; [apply (H2 eq_refl eq_refl)|].
  split; [apply (H3 eq_refl eq_refl eq_refl)|].
  split; [apply (H4 eq_refl)|].
  destruct H5 as (_ & _ & _ & _ & H5); [|exact H5].
  right; left. vm_compute. discriminate.
Defined.

Lemma fallback_parsing_eq rt response_text n :
  seed_score rt response_text = Ok n ->
  _fallback_parsing rt response_text =
    let st := fold_left (scan_line rt) (split_on LF response_text) scan_start in
    Ok (VInt n, str_list (correct_points st), str_list (missed_points st),
        str_list (wrong_points st)).
Proof. intros Hn. unfold _fallback_parsing. by rewrite Hn. Qed.

(** C3, as amended: the scan handles each line by the first rule that
    applies.  A line that is empty once stripped changes nothing.  For a
    non-empty stripped line that does not contain incorrect: if its
    lowercase form contains correct, good or accurate the section becomes
    correct; otherwise, if it contains missed or missing, missed; otherwise,
    if it contains wrong or error, wrong; a switch leaves the lists alone.
    Otherwise the line changes something only if it begins with a hyphen, a
    bullet or an asterisk while a section is active and the line without
    its first character, stripped, is not empty: then that point is
    appended to the list of the active section and nothing else changes.
    A line without keyword that is no bullet line, a bullet line while no
    section is active and a bullet line with an empty point leave the state
    as it is; whenever a list changes, all the conditions of the append
    hold.  The lists returned are those reached after the last line when
    the scan starts with no section and empty lists, and the example text
    yields 70, point one, point two and no wrong point. *)
Theorem heuristic_line_scan (rt : runtime) :
  (forall (st : scan_state) (raw_line : str),
     let line := strip raw_line in
     let low := lower rt line in
     let says_correct :=
       contains low (u "correct") || contains low (u "good")
       || contains low (u "accurate") in
     let says_missed := contains low (u "missed") || contains low (u "missing") in
     let says_wrong := contains low (u "wrong") || contains low (u "error") in
     let bullet :=
       startswith line (u "-") || startswith line [BULLET] || startswith line (u "*") in
     let point := strip (drop 1 line) in
     let st' := scan_line rt st raw_line in
     let switched_to s :=
       current_section st' = Some s /\
       st' = {| current_section := Some s; correct_points := correct_points st;
                missed_points := missed_points st; wrong_points := wrong_points st |} in
     (line = [] -> st' = st) /\
     (line <> [] -> contains low (u "incorrect") = false ->
        (says_correct = true -> switched_to correct) /\
        (says_correct = false -> says_missed = true -> switched_to missed) /\
        (says_correct = false -> says_missed = false -> says_wrong = true ->
           switched_to wrong) /\
        (says_correct = false -> says_missed = false -> says_wrong = false ->
           (bullet = false -> st' = st) /\
           (bullet = true -> current_section st = None -> st' = st) /\
           (bullet = true -> point = [] -> st' = st) /\
           (bullet = true -> point <> [] ->
              (current_section st = Some correct ->
                 st' = {| current_section := Some correct;
                          correct_points := correct_points st ++ [point];
                          missed_points := missed_points st;
                          wrong_points := wrong_points st |}) /\
              (current_section st = Some missed ->
                 st' = {| current_section := Some missed;
                          correct_points := correct_points st;
                          missed_points := missed_points st ++ [point];
                          wrong_points := wrong_points st |}) /\
              (current_section st = Some wrong ->
                 st' = {| current_section := Some wrong;
                          correct_points := correct_points st;
                          missed_points := missed_points st;
                          wrong_points := wrong_points st ++ [point] |})))) /\
     (correct_points st' <> correct_points st \/
      missed_points st' <> missed_points st \/
      wrong_points st' <> wrong_points st ->
        line <> [] /\ says_correct = false /\ says_missed = false /\
        says_wrong = false /\ contains low (u "incorrect") = false /\
        bullet = true /\ point <> [] /\
        exists s, current_section st = Some s /\ current_section st' = Some s /\
                  points_of s st' = points_of s st ++ [point] /\
                  forall s', s' <> s -> points_of s' st' = points_of s' st)) /\
  (forall (response_text : str) (n : Z),
     seed_score rt response_text = Ok n ->
     let st := fold_left (scan_line rt) (split_on LF response_text)
                 {| current_section := None; correct_points := [];
                    missed_points := []; wrong_points := [] |} in
     _fallback_parsing rt response_text =
       Ok (VInt n, VList (map VStr (correct_points st)),
           VList (map VStr (missed_points st)),
           VList (map VStr (wrong_points st)))) /\
  (let response_text := u "Accuracy Score: 70
Correct:
- point one
Missed:
- point two" in
   search_braces response_text = None /\
   undecodable rt response_text = true /\
   _fallback_parsing rt response_text =
     Ok (VInt 70, VList [VStr (u "point one")], VList [VStr (u "point two")],
         VList []) /\
   _parse_comparison_response rt response_text =
     Ok (VInt 70, VList [VStr (u "point one")], VList [VStr (u "point two")],
         VList [])).
Proof.
  split; [|split].
  - intros st raw_line line low sc sm sw bullet point st' switched_to.
    assert (Hwrong : contains low (u "incorrect") = false -> says_wrong rt line = sw).
    { intros Hinc. unfold says_wrong, has_keyword. fold low. rewrite Hinc.
      by rewrite orb_false_r. }
    assert (Hinc : says_wrong rt line = false ->
              sw = false /\ contains low (u "incorrect") = false).
    { unfold says_wrong, has_keyword. fold low. subst sw.
      destruct (contains low (u "wrong")), (contains low (u "incorrect")),
        (contains low (u "error")); done. }
    change sc with (says_correct rt line) in *.
    change sm with (says_missed rt line) in *.
    change bullet with (is_bullet line) in *.
    subst switched_to st'. cbv beta.
    destruct (list_eq_nil_dec line) as [E|Hne].
    { rewrite (scan_line_blank rt st raw_line E).
      split; [done|]. split; [done|]. by intros [?|[?|?]]. }
    rewrite (scan_line_eq rt st raw_line Hne). fold line. cbv zeta. fold point. clearbody point.
    split; [done|]. split.
    + intros _ Hi. rewrite (Hwrong Hi).
      split; [by intros ->|].
      split; [by intros -> ->|].
      split; [by intros -> -> ->|].
      intros -> -> ->.
      split; [by intros ->|].
      split; [intros -> ->; by destruct point|].
      split; [by intros -> ->|].
      intros -> Hp. destruct point as [|c p]; [done|].
      split; [|split]; intros Hs; rewrite Hs; cbn [append_point]; by rewrite Hs.
    + intros Hs.
      destruct (says_correct rt line); [by destruct Hs as [?|[?|?]]|].
      destruct (says_missed rt line); [by destruct Hs as [?|[?|?]]|].
      destruct (says_wrong rt line); [by destruct Hs as [?|[?|?]]|].
      destruct (Hinc eq_refl) as [-> ->].
      destruct (is_bullet line); [|by destruct Hs as [?|[?|?]]].
      destruct point as [|c p]; [by destruct Hs as [?|[?|?]]|].
      destruct (current_section st) as [s|] eqn:Es; [|by destruct Hs as [?|[?|?]]].
      repeat (split; [done|]). exists s.
      split; [done|]. split; [by rewrite current_section_append|].
      split; [apply points_of_append_same|].
      intros s' Hs'. by apply points_of_append_other.
  - intros response_text n Hn st. by apply fallback_parsing_eq.
  - repeat split.
Qed.

Lemma heuristic_line_scan_witness :
  let st := {| current_section := Some correct; correct_points := [u "first"];
               missed_points := []; wrong_points := [] |} in
  let start := {| current_section := None; correct_points := [];
                  missed_points := []; wrong_points := [] |} in
  scan_line ascii_runtime st (u "  * second  ") =
    {| current_section := Some correct; correct_points := [u "first"; u "second"];
       missed_points := []; wrong_points := [] |} /\
  scan_line ascii_runtime st (u "What was Missed:") =
    {| current_section := Some missed; correct_points := [u "first"];
       missed_points := []; wrong_points := [] |} /\
  scan_line ascii_runtime st (u "   ") =
    {| current_section := Some correct; correct_points := [u "first"];
       missed_points := []; wrong_points := [] |} /\
  scan_line ascii_runtime st (u "some prose") =
    {| current_section := Some correct; correct_points := [u "first"];
       missed_points := []; wrong_points := [] |} /\
  scan_line ascii_runtime st (u " -  ") =
    {| current_section := Some correct; correct_points := [u "first"];
       missed_points := []; wrong_points := [] |} /\
  scan_line ascii_runtime start (u "- stray") =
    {| current_section := None; correct_points := [];
       missed_points := []; wrong_points := [] |} /\
  _fallback_parsing ascii_runtime (u "accuracy_score 85
- stray

Good:
-
some prose

* a
Missing:
 - b
") = Ok (VInt 85, VList [VStr (u "a")], VList [VStr (u "b")], VList []).
Proof.
  intros st start.
  destruct (heuristic_line_scan ascii_runtime) as (Hline & Htext & _).
  destruct (Hline st (u "  * second  ")) as (_ & Hbullet & _).
  destruct (Hbullet ltac:(vm_compute; discriminate) eq_refl) as (_ & _ & _ & Hb).
  destruct (Hb eq_refl eq_refl eq_refl) as (_ & _ & _ & Happend).
  destruct (Happend eq_refl ltac:(vm_compute; discriminate)) as (H1 & _).
  destruct (Hline st (u "What was Missed:")) as (_ & Hkw & _).
  destruct (Hkw ltac:(vm_compute; discriminate) eq_refl) as (_ & Hmissed & _).
  destruct (Hmissed eq_refl eq_refl) as (_ & H2).
  destruct (Hline st (u "   ")) as (H3 & _).
  destruct (Hline st (u "some prose")) as (_ & Hprose & _).
  destruct (Hprose ltac:(vm_compute; discriminate) eq_refl) as (_ & _ & _ & Hp).
  destruct (Hp eq_refl eq_refl eq_refl) as (H4 & _).
  destruct (Hline st (u " -  ")) as (_ & Hempty & _).
  destruct (Hempty ltac:(vm_compute; discriminate) eq_refl) as (_ & _ & _ & He).
  destruct (He eq_refl eq_refl eq_refl) as (_ & _ & H5 & _).
  destruct (Hline start (u "- stray")) as (_ & Hstray & _).
  destruct (Hstray ltac:(vm_compute; discriminate) eq_refl) as (_ & _ & _ & Hn).
  destruct (Hn eq_refl eq_refl eq_refl) as (_ & H6 & _).
  split; [exact (H1 eq_refl)|].
  split; [exact H2|].
  split; [exact (H3 eq_refl)|].
  split; [exact (H4 eq_refl)|].
  split; [exact (H5 eq_refl eq_refl)|].
  split; [exact (H6 eq_refl eq_refl)|].
  exact (Htext (u "accuracy_score 85
- stray

Good:
-
some prose

* a
Missing:
 - b
") 85 eq_refl).
Defined.

(** C3, as stated, fails: a line that begins with a bullet marker while the
    missed section is active is not appended when its text contains a
    keyword (here good); it switches the section.  The scan of the two-line
    text returns no point at all.  And a line that contains missed does not
    switch to missed when it also contains good. *)
Lemma bullet_with_keyword_not_appended :
  let st := {| current_section := Some missed; correct_points := [];
               missed_points := []; wrong_points := [] |} in
  let line := u "- a good point" in
  is_bullet (strip line) = true /\
  strip (drop 1 (strip line)) = u "a good point" /\
  points_of missed (scan_line ascii_runtime st line) = [] /\
  current_section (scan_line ascii_runtime st line) = Some correct /\
  current_section (scan_line ascii_runtime scan_start (u "Missed, but the rest is good"))
    = Some correct /\
  _fallback_parsing ascii_runtime (u "Missed:
- a good point") = Ok (VInt 50, str_list [], str_list [], str_list []).
Proof. repeat split. Qed.


(** ** The JSON decoder

    The decoder consumes text at every call, so the fuel that [json.loads]
    provides is never used up: a [RecursionError] never comes from the
    model of the decoder. *)
Lemma skip_ws_length s : (length (json.skip_ws s) <= length s)%nat.
Proof. induction s as [|c s IH]; simpl; [lia|]. case_match; simpl; lia. Qed.

Lemma span_digits_length s ds r :
  json.span_digits s = (ds, r) -> (length r <= length s)%nat.
Proof.
  revert ds r. induction s as [|c s IH]; intros ds r; simpl.
  - intros [= <- <-]. simpl. lia.
  - destruct (json.is_digit c).
    + destruct (json.span_digits s) as [ds' r'] eqn:E. intros [= <- <-].
      specialize (IH _ _ eq_refl). lia.
    + intros [= <- <-]. simpl. lia.
Qed.

Lemma scanstring_length s : forall acc k r,
  json.scanstring s acc = Ok (k, r) -> (length r < length s)%nat.
Proof.
  induction s as [s IH] using (induction_ltof1 _ (@length N)). unfold ltof in IH.
  intros acc k r. destruct s as [|c s]; [discriminate|].
  cbn [json.scanstring].
  intros Hscan.
  repeat case_match; simplify_eq; simpl; try lia;
    (apply IH in Hscan; simpl in *; lia).
Qed.

Lemma scanstring_error s : forall acc e,
  json.scanstring s acc = Raise e -> e = JSONDecodeError.
Proof.
  induction s as [s IH] using (induction_ltof1 _ (@length N)). unfold ltof in IH.
  intros acc e. destruct s as [|c s]; [by intros [= <-]|].
  cbn [json.scanstring]. intros Hscan.
  repeat case_match; simplify_eq; try reflexivity;
    (eapply IH; [|exact Hscan]; simpl; lia).
Qed.

Lemma expect_length c s r : json.expect c s = Some r -> length s = S (length r).
Proof.
  destruct s as [|d s]; simpl; [done|]. case_match; intros [= <-]; done.
Qed.

Lemma match_int_part_length s ds r :
  json.match_int_part s = Some (ds, r) -> (length r < length s)%nat.
Proof.
  unfold json.match_int_part. destruct s as [|c s]; [done|].
  destruct (c =? 48)%N; [intros [= <- <-]; simpl; lia|].
  destruct (json.is_digit c); [|done].
  destruct (json.span_digits s) as [ds' r'] eqn:E. intros [= <- <-].
  apply span_digits_length in E. simpl. lia.
Qed.

Lemma match_frac_length s f r :
  json.match_frac s = (f, r) -> (length r <= length s)%nat.
Proof.
  unfold json.match_frac.
  destruct (json.expect 46 s) as [[|d r0]|] eqn:E; try (intros [= <- <-]; lia).
  apply expect_length in E. destruct (json.is_digit d); [|intros [= <- <-]; lia].
  destruct (json.span_digits r0) as [ds' r'] eqn:E'. intros [= <- <-].
  apply span_digits_length in E'. simpl in E. lia.
Qed.

Lemma match_exp_length s x r :
  json.match_exp s = (x, r) -> (length r <= length s)%nat.
Proof.
  unfold json.match_exp. destruct s as [|e s]; [intros [= <- <-]; lia|].
  destruct ((e =? 101) || (e =? 69))%N; [|intros [= <- <-]; lia].
  set (sgn := match s with
              | c :: r' => if ((c =? 45) || (c =? 43))%N then ([c], r') else ([], s)
              | [] => ([], s)
              end).
  assert (Hs : (length sgn.2 <= length s)%nat).
  { subst sgn. destruct s as [|c r']; [simpl; lia|].
    destruct ((c =? 45) || (c =? 43))%N; simpl; lia. }
  destruct sgn as [sign r1]. simpl in Hs.
  destruct (json.span_digits r1) as [[|d ds] r2] eqn:E; intros [= <- <-];
    [simpl; lia|].
  apply span_digits_length in E. simpl. lia.
Qed.

Lemma match_number_length parse_int s v r :
  json.match_number parse_int s = Ok (v, r) -> (length r < length s)%nat.
Proof.
  unfold json.match_number.
  set (sgn := match json.expect 45 s with Some r => (true, r) | None => (false, s) end).
  assert (Hs : (length sgn.2 <= length s)%nat).
  { subst sgn. destruct (json.expect 45 s) eqn:E; simpl; [|lia].
    apply expect_length in E. lia. }
  destruct sgn as [neg s1]. simpl in Hs.
  destruct (json.match_int_part s1) as [[ds r0]|] eqn:E0; [|done].
  apply match_int_part_length in E0.
  destruct (json.match_frac r0) as [f r1] eqn:E1. apply match_frac_length in E1.
  destruct (json.match_exp r1) as [x r2] eqn:E2. apply match_exp_length in E2.
  unfold mbind, result_bind.
  destruct (f ++ x); [destruct (parse_int _); [|done]|]; intros [= <- <-]; lia.
Qed.

Lemma match_number_error parse_int s e :
  (forall t, parse_int t <> Raise RecursionError) ->
  json.match_number parse_int s = Raise e -> e <> RecursionError.
Proof.
  intros Hint. unfold json.match_number.
  destruct (match json.expect 45 s with Some r => (true, r) | None => (false, s) end)
    as [neg s1].
  destruct (json.match_int_part s1) as [[ds r0]|]; [|by intros [= <-]].
  destruct (json.match_frac r0) as [f r1]. destruct (json.match_exp r1) as [x r2].
  unfold mbind, result_bind. destruct (f ++ x); [|done].
  destruct (parse_int _) as [n|e'] eqn:E; [done|].
  intros [= <-] ->. by eapply Hint.
Qed.

Section decoder_progress.
Variable parse_int : str -> result Z.
Hypothesis parse_int_error : forall t, parse_int t <> Raise RecursionError.

Lemma progresses_shorter s s' res :
  (length s' <= length s)%nat -> json.progresses s' res -> json.progresses s res.
Proof. destruct res as [[v r]|e]; simpl; [lia | done]. Qed.

Lemma decoder_progress fuel :
  (forall s, (2 * length s < fuel)%nat ->
     json.progresses s (json.scan_once parse_int fuel s)) /\
  (forall d s, (2 * length s + 1 < fuel)%nat ->
     json.progresses s (json.object_members parse_int fuel d s)) /\
  (forall acc s, (2 * length s + 1 < fuel)%nat ->
     json.progresses s (json.array_items parse_int fuel acc s)).
Proof.
  induction fuel as [|fuel (IHscan & IHobj & IHarr)];
    [repeat split; intros; lia|].
  split; [|split].
  - intros [|c rest] Hlen; [done|]. cbn [length] in Hlen.
    cbn [json.scan_once].
    destruct (c =? 34)%N.
    { unfold mbind, result_bind.
      destruct (json.scanstring rest []) as [[k r]|e] eqn:E; cbn [json.progresses].
      - apply scanstring_length in E. cbn [length]. lia.
      - apply scanstring_error in E. by subst. }
    pose proof (skip_ws_length rest) as Hws.
    destruct (c =? 123)%N.
    { destruct (json.expect 125 (json.skip_ws rest)) as [r|] eqn:E.
      - apply expect_length in E. cbn [json.progresses length]. lia.
      - eapply progresses_shorter; [|apply IHobj]; cbn [length]; lia. }
    destruct (c =? 91)%N.
    { destruct (json.expect 93 (json.skip_ws rest)) as [r|] eqn:E.
      - apply expect_length in E. cbn [json.progresses length]. lia.
      - eapply progresses_shorter; [|apply IHarr]; cbn [length]; lia. }
    repeat (case_match; [cbn [json.progresses]; rewrite length_drop; cbn [length]; lia|]).
    destruct (json.match_number parse_int (c :: rest)) as [[v r]|e] eqn:E;
      cbn [json.progresses].
    + by eapply match_number_length.
    + by eapply match_number_error.
  - intros d s Hlen. cbn [json.object_members].
    destruct (json.expect 34 s) as [r0|] eqn:E0; [|done].
    apply expect_length in E0. unfold mbind, result_bind.
    destruct (json.scanstring r0 []) as [[key r1]|e] eqn:E1;
      [|apply scanstring_error in E1; by subst].
    apply scanstring_length in E1. pose proof (skip_ws_length r1).
    destruct (json.expect 58 (json.skip_ws r1)) as [r2|] eqn:E2; [|done].
    apply expect_length in E2. pose proof (skip_ws_length r2).
    pose proof (IHscan (json.skip_ws r2) ltac:(lia)) as Hv.
    destruct (json.scan_once parse_int fuel (json.skip_ws r2)) as [[val r3]|e];
      cbn [json.progresses] in Hv; [|done].
    pose proof (skip_ws_length r3).
    destruct (json.expect 125 (json.skip_ws r3)) as [r4|] eqn:E4.
    { apply expect_length in E4. cbn [json.progresses]. lia. }
    destruct (json.expect 44 (json.skip_ws r3)) as [r5|] eqn:E5; [|done].
    apply expect_length in E5. pose proof (skip_ws_length r5).
    eapply progresses_shorter; [|apply IHobj]; lia.
  - intros acc s Hlen. cbn [json.array_items]. unfold mbind, result_bind.
    pose proof (IHscan s ltac:(lia)) as Hv.
    destruct (json.scan_once parse_int fuel s) as [[val r3]|e];
      cbn [json.progresses] in Hv; [|done].
    pose proof (skip_ws_length r3).
    destruct (json.expect 93 (json.skip_ws r3)) as [r4|] eqn:E4.
    { apply expect_length in E4. cbn [json.progresses]. lia. }
    destruct (json.expect 44 (json.skip_ws r3)) as [r5|] eqn:E5; [|done].
    apply expect_length in E5. pose proof (skip_ws_length r5).
    eapply progresses_shorter; [|apply IHarr]; lia.
Qed.

(** The fuel that [loads] gives is never used up. *)
Lemma loads_fuel s : json.loads parse_int s <> Raise RecursionError.
Proof.
  unfold json.loads. case_match; [done|]. unfold mbind, result_bind.
  pose proof (skip_ws_length s).
  destruct (decoder_progress (S (2 * length s))) as (Hscan & _).
  specialize (Hscan (json.skip_ws s) ltac:(lia)).
  destruct (json.scan_once parse_int (S (2 * length s)) (json.skip_ws s)) as [[obj rest]|e].
  - by case_match.
  - cbn [json.progresses] in Hscan. congruence.
Qed.

End decoder_progress.

Lemma int_error rt t : int rt t <> Raise RecursionError.
Proof.
  unfold int.
  destruct (match json.expect 45 t with Some r => (true, r) | None => (false, t) end)
    as [neg ds].
  destruct ((640 <? length ds) && (0 <? int_max_str_digits rt)
            && (int_max_str_digits rt <? length ds))%nat; [done|].
  destruct ds; [done|]. by destruct (digits_value rt 0 _).
Qed.

Corollary json_loads_fuel rt s : json.loads (int rt) s <> Raise RecursionError.
Proof. apply loads_fuel, int_error. Qed.

(** The prompt built for two one-letter texts has the 1135 characters of the
    template. *)
Example prompt_length :
  length (_create_comparison_prompt (u "X") (u "Y") (u "skimming")) = 1135%nat.
Proof. reflexivity. Qed.

(** ** The response interpreter *)

Lemma try_except_returns {A} (body : result A) (handler : exn -> result A) :
  (forall e, returns (handler e)) -> returns (try_except body handler).
Proof. intros Hh. destruct body as [a|e]; [by exists a | apply Hh]. Qed.

Lemma fallback_parsing_returns rt response_text :
  returns (_fallback_parsing rt response_text).
Proof. apply try_except_returns. intros _. by eexists. Qed.

Lemma parse_comparison_response_returns rt response_text :
  returns (_parse_comparison_response rt response_text).
Proof. apply try_except_returns. intros _. apply fallback_parsing_returns. Qed.

Lemma undecodable_fallback rt response_text :
  undecodable rt response_text = true ->
  _parse_comparison_response rt response_text = _fallback_parsing rt response_text.
Proof.
  unfold undecodable, _parse_comparison_response. intros Hu.
  destruct (search_braces response_text) as [json_str|].
  - destruct (json.loads (int rt) json_str); [discriminate | reflexivity].
  - pose proof (fallback_parsing_returns rt response_text) as [r ->]. reflexivity.
Qed.

Lemma scan_line_not_bullet rt st raw_line :
  is_bullet (strip raw_line) = false ->
  forall s, points_of s (scan_line rt st raw_line) = points_of s st.
Proof.
  intros Hb s. destruct (strip raw_line) as [|c l] eqn:E.
  - unfold scan_line. by rewrite E.
  - rewrite scan_line_eq by (rewrite E; done). cbv zeta. rewrite E, Hb.
    repeat case_match; auto using points_of_set_section.
Qed.

Lemma scan_no_bullets rt lines : forall st,
  forallb (fun line => negb (is_bullet (strip line))) lines = true ->
  forall s, points_of s (fold_left (scan_line rt) lines st) = points_of s st.
Proof.
  induction lines as [|l lines IH]; intros st Hall s; [reflexivity|].
  simpl in Hall. apply andb_true_iff in Hall as [Hl Hrest].
  simpl. rewrite IH by exact Hrest.
  apply scan_line_not_bullet. by apply negb_true_iff.
Qed.

(** C8: the interpreter returns a result for every raw text and never
    raises; when no brace-delimited substring decodes, no accuracy score
    label is found and no line is a bullet line, the result is the score 50
    with three empty lists. *)
Theorem interpreter_total (rt : runtime) (response_text : str) :
  returns (_parse_comparison_response rt response_text) /\
  returns (_fallback_parsing rt response_text) /\
  (undecodable rt response_text = true ->
   search_score rt response_text = None ->
   no_bullets response_text = true ->
   _parse_comparison_response rt response_text =
     Ok (VInt 50, VList [], VList [], VList [])).
Proof.
  split; [apply parse_comparison_response_returns|].
  split; [apply fallback_parsing_returns|].
  intros Hu Hs Hb. rewrite undecodable_fallback by exact Hu.
  rewrite (fallback_parsing_eq rt response_text 50)
    by (unfold seed_score; by rewrite Hs).
  cbv zeta.
  pose proof (scan_no_bullets rt (split_on LF response_text) scan_start Hb) as Hpts.
  pose proof (Hpts correct) as Hc. pose proof (Hpts missed) as Hm.
  pose proof (Hpts wrong) as Hw. simpl in Hc, Hm, Hw.
  by rewrite Hc, Hm, Hw.
Qed.

Lemma interpreter_total_witness :
  _parse_comparison_response ascii_runtime (u "I am sorry, {no analysis} is available.
Please try again") = Ok (VInt 50, VList [], VList [], VList []).
Proof.
  apply interpreter_total; reflexivity.
Defined.

(** C7: the well-formed structured response is matched whole by the brace
    search, decoded by [json.loads], and interpreted by the structured
    branch to exactly 82, the point a, the point b and no wrong point. *)
Theorem structured_round_trip (rt : runtime) :
  let response_text :=
    u "{`accuracy_score`: 82, `correct_points`: [`a`], `missed_points`: [`b`], `wrong_points`: []}" in
  search_braces response_text = Some response_text /\
  undecodable rt response_text = false /\
  json.loads (int rt) response_text =
    Ok (VDict [ (u "accuracy_score", VInt 82);
                (u "correct_points", VList [VStr (u "a")]);
                (u "missed_points", VList [VStr (u "b")]);
                (u "wrong_points", VList []) ]) /\
  _parse_comparison_response rt response_text =
    Ok (VInt 82, VList [VStr (u "a")], VList [VStr (u "b")], VList []).
Proof. repeat split. Qed.

(** C2 (the code departs from it): the structured branch returns the value
    stored under accuracy_score as it is; 140 stays 140, -5 stays -5, a
    string stays a string; only a missing key gives 0. *)
Theorem structured_score_returned_as_decoded (rt : runtime) :
  _parse_comparison_response rt
    (u "{`accuracy_score`: 140, `correct_points`: [], `missed_points`: [], `wrong_points`: []}")
    = Ok (VInt 140, VList [], VList [], VList []) /\
  _parse_comparison_response rt
    (u "{`accuracy_score`: -5, `correct_points`: [], `missed_points`: [], `wrong_points`: []}")
    = Ok (VInt (-5), VList [], VList [], VList []) /\
  _parse_comparison_response rt
    (u "{`accuracy_score`: `high`, `correct_points`: [], `missed_points`: [], `wrong_points`: []}")
    = Ok (VStr (u "high"), VList [], VList [], VList []) /\
  _parse_comparison_response rt
    (u "{`correct_points`: [], `missed_points`: [], `wrong_points`: []}")
    = Ok (VInt 0, VList [], VList [], VList []).
Proof. repeat split. Qed.

(** C6 (the code departs from it): the structured branch returns the three
    values stored under the point keys as they are; null, a string and a
    list of numbers come back unchanged, and none of them is a list of
    strings; only a missing key gives the empty list. *)
Theorem structured_points_returned_as_decoded (rt : runtime) :
  _parse_comparison_response rt
    (u "{`accuracy_score`: 80, `correct_points`: null, `missed_points`: `none`, `wrong_points`: [1, 2]}")
    = Ok (VInt 80, VNone, VStr (u "none"), VList [VInt 1; VInt 2]) /\
  is_str_list VNone = false /\
  is_str_list (VStr (u "none")) = false /\
  is_str_list (VList [VInt 1; VInt 2]) = false /\
  _parse_comparison_response rt (u "{`accuracy_score`: 80}")
    = Ok (VInt 80, VList [], VList [], VList []).
Proof. repeat split. Qed.

(** ** The orchestrator *)

Lemma simple_comparison_returns rt original_text summary_text :
  returns (_simple_comparison rt original_text summary_text).
Proof. apply try_except_returns. intros _. by eexists. Qed.

(** C5: [compare_texts] returns for every service object and every input;
    without a model it returns the result of the local overlap scorer; when
    the [try] block raises, whatever the exception and wherever it comes
    from, it returns the result of the local overlap scorer; in particular
    when the call of the model raises. *)
Theorem compare_texts_never_raises (rt : runtime) (self : TextComparisonService)
    (original_text summary_text reading_mode : str) :
  let local := _simple_comparison rt original_text summary_text in
  let result := compare_texts rt self original_text summary_text reading_mode in
  returns result /\
  (model self = None -> result = local) /\
  (forall e, model_tier rt self original_text summary_text reading_mode = Raise e ->
     result = local) /\
  (forall client e, model self = Some client ->
     client (_create_comparison_prompt original_text summary_text reading_mode) = Raise e ->
     result = local) /\
  (forall r, is_available self = true ->
     model_tier rt self original_text summary_text reading_mode = Ok r ->
     result = Ok r).
Proof.
  intros local result. subst result. unfold compare_texts.
  split.
  { destruct (negb (is_available self)); [apply simple_comparison_returns|].
    apply try_except_returns. intros _. apply simple_comparison_returns. }
  split.
  { intros Hm. unfold is_available. by rewrite Hm. }
  split.
  { intros e He. rewrite He. by destruct (negb (is_available self)). }
  split.
  { intros client e Hm He. unfold is_available, model_tier, generate_content.
    rewrite Hm. simpl. by rewrite He. }
  intros r Ha Hr. by rewrite Ha, Hr.
Qed.

Lemma compare_texts_never_raises_witness :
  let failing := {| model := Some (fun _ => Raise (ModelError (u "quota exceeded"))) |} in
  let absent := {| model := None |} in
  compare_texts ascii_runtime failing (u "a b c d") (u "a b c") (u "detailed") =
    Ok (VInt 75, placeholder_correct, placeholder_missed, VList []) /\
  compare_texts ascii_runtime absent (u "a b c d") (u "a b c") (u "detailed") =
    Ok (VInt 75, placeholder_correct, placeholder_missed, VList []).
Proof.
  intros failing absent.
  destruct (compare_texts_never_raises ascii_runtime failing
              (u "a b c d") (u "a b c") (u "detailed")) as (_ & _ & _ & Hraise & _).
  destruct (compare_texts_never_raises ascii_runtime absent
              (u "a b c d") (u "a b c") (u "detailed")) as (_ & Habsent & _).
  split.
  - exact (Hraise _ (ModelError (u "quota exceeded")) eq_refl eq_refl).
  - exact (Habsent eq_refl).
Defined.

(** C1 (the code departs from it): the score that [compare_texts] returns
    is not always an integer in [0,100].  When the model answers with a JSON
    object whose accuracy_score is 140 the structured tier returns 140; a
    fractional score comes back as a float; and when it answers with an
    accuracy score label followed by 250 the heuristic tier returns 250. *)
Theorem model_score_not_bounded (rt : runtime)
    (original_text summary_text reading_mode : str) :
  let answering text := {| model := Some (fun _ => Ok text) |} in
  let result self := compare_texts rt self original_text summary_text reading_mode in
  result (answering (u "{`accuracy_score`: 140, `correct_points`: [], `missed_points`: [], `wrong_points`: []}"))
    = Ok (VInt 140, VList [], VList [], VList []) /\
  result (answering (u "{`accuracy_score`: 85.5, `correct_points`: [], `missed_points`: [], `wrong_points`: []}"))
    = Ok (VFloat (u "85.5"), VList [], VList [], VList []) /\
  result (answering (u "Accuracy score: 250"))
    = Ok (VInt 250, VList [], VList [], VList []) /\
  ~ is_score (VInt 140) /\ ~ is_score (VFloat (u "85.5")) /\ ~ is_score (VInt 250).
Proof.
  intros answering result.
  split; [reflexivity|]. split; [reflexivity|]. split; [reflexivity|].
  unfold is_score. repeat split; try lia; tauto.
Qed.

(** * Further properties of the service *)

(** ** The brace search *)

Lemma upto_last_none c s : upto_last c s = None <-> c ∉ s.
Proof.
  induction s as [|d s IH]; simpl.
  - split; [intros _; apply not_elem_of_nil | done].
  - rewrite not_elem_of_cons. destruct (upto_last c s) as [p|].
    + split; [done|]. intros [_ Hs]. by apply IH in Hs.
    + destruct (N.eqb_spec d c) as [->|Hne]; split; try done.
      * by intros [? _].
      * intros _. split; [done | by apply IH].
Qed.

Lemma upto_last_some c s p :
  upto_last c s = Some p ->
  exists body post, p = body ++ [c] /\ s = p ++ post /\ c ∉ post.
Proof.
  revert p. induction s as [|d s IH]; intros p; simpl; [done|].
  destruct (upto_last c s) as [p'|] eqn:E.
  - intros [= <-]. destruct (IH p' eq_refl) as (body & post & -> & Hs & Hpost).
    exists (d :: body), post. by rewrite Hs at 1.
  - destruct (N.eqb_spec d c) as [->|Hne]; [|done]. intros [= <-].
    exists [], s. split; [done|]. split; [done|]. by apply upto_last_none.
Qed.

Lemma upto_last_app c body post :
  c ∉ post -> upto_last c (body ++ c :: post) = Some (body ++ [c]).
Proof.
  intros Hpost. induction body as [|d body IH]; simpl.
  - apply upto_last_none in Hpost. rewrite Hpost. by rewrite N.eqb_refl.
  - by rewrite IH.
Qed.

Lemma search_braces_some response_text json_str :
  search_braces response_text = Some json_str ->
  exists before body after,
    response_text = before ++ json_str ++ after /\
    json_str = 123%N :: (body ++ [125%N]) /\
    (123%N ∉ before) /\ (125%N ∉ after).
Proof.
  revert json_str. induction response_text as [|c s IH]; intros j; simpl; [done|].
  destruct (N.eqb_spec c 123) as [->|Hne].
  - destruct (upto_last 125 s) as [p|] eqn:E.
    + intros [= <-]. destruct (upto_last_some _ _ _ E) as (body & post & -> & -> & Hpost).
      exists [], body, post. split; [done|]. split; [done|].
      split; [apply not_elem_of_nil | done].
    + intros Hs. destruct (IH _ Hs) as (before & body & post & -> & -> & _ & Hpost).
      apply upto_last_none in E. exfalso. apply E. set_solver.
  - intros Hs. destruct (IH _ Hs) as (before & body & post & -> & -> & Hb & Hpost).
    exists (c :: before), body, post. split; [done|]. split; [done|].
    split; [|done]. apply not_elem_of_cons. split; [congruence | done].
Qed.

Lemma search_braces_app before body after :
  123%N ∉ before -> 125%N ∉ after ->
  search_braces (before ++ (123%N :: (body ++ [125%N])) ++ after) =
    Some (123%N :: (body ++ [125%N])).
Proof.
  intros Hb Hpost. induction before as [|c before IH]; simpl.
  - rewrite <- app_assoc. simpl.
    by rewrite (upto_last_app 125 body after Hpost).
  - apply not_elem_of_cons in Hb as [Hc Hb].
    destruct (N.eqb_spec c 123); [congruence|]. by apply IH.
Qed.

(** X1: the match of the brace search starts at the first opening brace of
    the text and ends at its last closing brace. *)
Theorem search_braces_first_to_last (response_text json_str : str) :
  search_braces response_text = Some json_str <->
  exists before body after,
    response_text = before ++ json_str ++ after /\
    json_str = 123%N :: (body ++ [125%N]) /\
    (123%N ∉ before) /\ (125%N ∉ after).
Proof.
  split; [apply search_braces_some|].
  intros (before & body & post & -> & -> & Hb & Hpost).
  by apply search_braces_app.
Qed.

Lemma search_braces_first_to_last_witness :
  search_braces (u "Sure: {`a`: {`b`: 1}} and {`c`: 2} done")
    = Some (u "{`a`: {`b`: 1}} and {`c`: 2}").
Proof.
  apply search_braces_first_to_last.
  exists (u "Sure: "), (u "`a`: {`b`: 1}} and {`c`: 2"), (u " done").
  split; [reflexivity|]. split; [reflexivity|].
  split; intros Hin; repeat (apply elem_of_cons in Hin as [Hin|Hin]; [discriminate|]);
    by apply elem_of_nil in Hin.
Defined.

(** ** The structured branch *)

Lemma object_members_dict parse_int fuel : forall d s v r,
  json.object_members parse_int fuel d s = Ok (v, r) -> exists d', v = VDict d'.
Proof.
  induction fuel as [|fuel IH]; intros d s v r; [done|].
  cbn [json.object_members]. unfold mbind, result_bind.
  destruct (json.expect 34 s) as [r0|]; [|done].
  destruct (json.scanstring r0 []) as [[key r1]|]; [|done].
  destruct (json.expect 58 (json.skip_ws r1)) as [r2|]; [|done].
  destruct (json.scan_once parse_int fuel (json.skip_ws r2)) as [[val r3]|]; [|done].
  destruct (json.expect 125 (json.skip_ws r3)) as [r4|].
  { intros [= <- <-]. by eexists. }
  destruct (json.expect 44 (json.skip_ws r3)) as [r5|]; [|done].
  apply IH.
Qed.

Lemma loads_brace_dict parse_int rest v :
  json.loads parse_int (123%N :: rest) = Ok v -> exists d, v = VDict d.
Proof.
  unfold json.loads. change (startswith (123%N :: rest) [65279%N]) with false.
  cbv iota. change (json.skip_ws (123%N :: rest)) with (123%N :: rest).
  cbn [json.scan_once]. change (123 =? 34)%N with false.
  change (123 =? 123)%N with true. cbv iota. unfold mbind, result_bind.
  destruct (json.expect 125 (json.skip_ws rest)) as [r|].
  - destruct (json.skip_ws r); [|done]. intros [= <-]. by eexists.
  - destruct (json.object_members _ _ _ _) as [[obj r]|] eqn:E; [|done].
    apply object_members_dict in E as [d ->].
    destruct (json.skip_ws r); [|done]. intros [= <-]. by eexists.
Qed.

(** X2: what the brace search finds and [json.loads] decodes is always an
    object, so [data.get] never raises; the result of the interpreter is
    then made of the four values of that object, with 0 and the empty list
    for a missing key, and the heuristic scan is not consulted. *)
Theorem structured_branch (rt : runtime) (response_text json_str : str) (data : value) :
  search_braces response_text = Some json_str ->
  json.loads (int rt) json_str = Ok data ->
  exists d, data = VDict d /\
    _parse_comparison_response rt response_text =
      Ok (default (VInt 0) (dict_lookup d (u "accuracy_score")),
          default (VList []) (dict_lookup d (u "correct_points")),
          default (VList []) (dict_lookup d (u "missed_points")),
          default (VList []) (dict_lookup d (u "wrong_points"))).
Proof.
  intros Hs Hl.
  assert (exists d, data = VDict d) as [d ->].
  { destruct (search_braces_some _ _ Hs) as (_ & body & _ & _ & -> & _).
    by eapply loads_brace_dict. }
  exists d. split; [done|].
  unfold _parse_comparison_response. by rewrite Hs, Hl.
Qed.

Lemma structured_branch_witness :
  _parse_comparison_response ascii_runtime
    (u "Accuracy score: 10
- ignored
{`accuracy_score`: 64, `accuracy_score`: 65, `missed_points`: [`m`]}")
  = Ok (VInt 65, VList [], VList [VStr (u "m")], VList []).
Proof.
  destruct (structured_branch ascii_runtime
    (u "Accuracy score: 10
- ignored
{`accuracy_score`: 64, `accuracy_score`: 65, `missed_points`: [`m`]}")
    (u "{`accuracy_score`: 64, `accuracy_score`: 65, `missed_points`: [`m`]}")
    (VDict [(u "accuracy_score", VInt 65); (u "missed_points", VList [VStr (u "m")])])
    eq_refl eq_refl) as (d & Hd & Hres).
  injection Hd as <-. exact Hres.
Defined.

(** X3: text before the first opening brace and after the last closing brace
    does not change the result when the text between them decodes. *)
Theorem surrounding_text_ignored (rt : runtime) (before body after : str) (data : value) :
  123%N ∉ before -> 125%N ∉ after ->
  json.loads (int rt) (123%N :: (body ++ [125%N])) = Ok data ->
  _parse_comparison_response rt (before ++ (123%N :: (body ++ [125%N])) ++ after) =
  _parse_comparison_response rt (123%N :: (body ++ [125%N])).
Proof.
  intros Hb Ha Hl.
  assert (H1 : search_braces (before ++ (123%N :: (body ++ [125%N])) ++ after)
               = Some (123%N :: (body ++ [125%N])))
    by (by apply search_braces_app).
  assert (H2 : search_braces (123%N :: (body ++ [125%N]))
               = Some (123%N :: (body ++ [125%N]))).
  { pose proof (search_braces_app [] body []) as H. rewrite app_nil_r in H.
    apply H; apply not_elem_of_nil. }
  destruct (loads_brace_dict _ _ _ Hl) as [d ->].
  unfold _parse_comparison_response. by rewrite H1, H2, Hl.
Qed.

Lemma surrounding_text_ignored_witness :
  _parse_comparison_response ascii_runtime
    (u "Here is my analysis, as JSON: {`accuracy_score`: 90} I hope it helps.") =
  _parse_comparison_response ascii_runtime (u "{`accuracy_score`: 90}").
Proof.
  apply (surrounding_text_ignored ascii_runtime
           (u "Here is my analysis, as JSON: ") (u "`accuracy_score`: 90")
           (u " I hope it helps.") (VDict [(u "accuracy_score", VInt 90)])).
  - intros Hin; repeat (apply elem_of_cons in Hin as [Hin|Hin]; [discriminate|]);
      by apply elem_of_nil in Hin.
  - intros Hin; repeat (apply elem_of_cons in Hin as [Hin|Hin]; [discriminate|]);
      by apply elem_of_nil in Hin.
  - reflexivity.
Defined.

(** ** Substrings *)

Lemma startswith_spec s p : startswith s p = true <-> exists post, s = p ++ post.
Proof.
  revert s. induction p as [|c p IH]; intros [|d s]; simpl.
  - split; [by exists [] | done].
  - split; [by exists (d :: s) | done].
  - split; [done | by intros (? & ?)].
  - rewrite andb_true_iff, IH. split.
    + intros [Hc (post & ->)]. apply N.eqb_eq in Hc as ->. by exists post.
    + intros (post & [= -> ->]). split; [apply N.eqb_refl | by exists post].
Qed.

Lemma contains_spec s sub :
  contains s sub = true <-> exists pre post, s = pre ++ sub ++ post.
Proof.
  induction s as [|c s IH]; cbn [contains].
  - rewrite orb_false_r, startswith_spec. split.
    + intros (post & H). by exists [], post.
    + intros (pre & post & H). destruct pre; [by exists post|done].
  - rewrite orb_true_iff, startswith_spec, IH. split.
    + intros [(post & ->)|(pre & post & ->)]; [by exists [], post|].
      by exists (c :: pre), post.
    + intros ([|c' pre] & post & H); [left; by exists post|].
      injection H as <- ->. right. by exists pre, post.
Qed.

Lemma contains_suffix s a b : contains s (a ++ b) = true -> contains s b = true.
Proof.
  rewrite !contains_spec. intros (pre & post & ->).
  exists (pre ++ a), post. by rewrite <- !app_assoc.
Qed.

(** ** More on the heuristic line scan *)

(** X4: a line whose lowercase form contains incorrect always switches the
    scan to the correct section, never to the wrong one: the word contains
    correct, and that test comes first. *)
Theorem incorrect_switches_to_correct (rt : runtime) (st : scan_state) (raw_line : str) :
  has_keyword rt (strip raw_line) (u "incorrect") = true ->
  scan_line rt st raw_line = set_section st correct /\
  current_section (scan_line rt st raw_line) <> Some wrong.
Proof.
  intros Hinc.
  assert (Hcor : has_keyword rt (strip raw_line) (u "correct") = true)
    by (apply (contains_suffix _ (u "in") (u "correct")), Hinc).
  assert (Hne : strip raw_line <> []).
  { intros E. rewrite E in Hinc. discriminate. }
  rewrite (scan_line_eq rt st raw_line Hne). cbv zeta.
  unfold says_correct. by rewrite Hcor.
Qed.

Lemma incorrect_switches_to_correct_witness :
  let st := {| current_section := Some missed; correct_points := [];
               missed_points := []; wrong_points := [] |} in
  _fallback_parsing ascii_runtime (u "Incorrect statements:
- the date is off") = Ok (VInt 50, str_list [u "the date is off"], str_list [], str_list []) /\
  scan_line ascii_runtime st (u "Incorrect statements:") = set_section st correct.
Proof.
  intros st. split; [reflexivity|].
  apply (incorrect_switches_to_correct ascii_runtime st). reflexivity.
Defined.

Lemma scan_line_points rt st raw_line s p :
  p ∈ points_of s (scan_line rt st raw_line) ->
  p ∈ points_of s st \/
  (is_bullet (strip raw_line) = true /\ keyword_free rt (strip raw_line) = true /\
   p = strip (drop 1 (strip raw_line)) /\ p <> [] /\ current_section st = Some s).
Proof.
  destruct (strip raw_line) as [|c l] eqn:E.
  { unfold scan_line. rewrite E. by left. }
  rewrite scan_line_eq by (by rewrite E). cbv zeta. rewrite E.
  unfold keyword_free.
  destruct (says_correct rt (c :: l)); [rewrite points_of_set_section; by left|].
  destruct (says_missed rt (c :: l)); [rewrite points_of_set_section; by left|].
  destruct (says_wrong rt (c :: l)); [rewrite points_of_set_section; by left|].
  destruct (is_bullet (c :: l)); [|by left].
  destruct (strip (drop 1 (c :: l))) as [|c' p'] eqn:Ep; [by left|].
  destruct (current_section st) as [s0|] eqn:Es; [|by left].
  assert (s = s0 \/ s <> s0) as [->|Hne]
    by (destruct s, s0; (by left) || by right).
  - rewrite points_of_append_same, elem_of_app, list_elem_of_singleton.
    intros [?| ->]; [by left | right; done].
  - rewrite points_of_append_other by done. by left.
Qed.

Lemma scan_points_from_bullets rt all lines : forall st,
  lines ⊆ all ->
  (forall s p, p ∈ points_of s st -> from_bullet rt all p) ->
  forall s p, p ∈ points_of s (fold_left (scan_line rt) lines st) ->
    from_bullet rt all p.
Proof.
  induction lines as [|l lines IH]; intros st Hsub Hst s p; simpl; [apply Hst|].
  apply IH; [set_solver|]. intros s' p' Hin.
  apply scan_line_points in Hin as [Hin|(Hb & Hk & -> & Hne & _)]; [by eapply Hst|].
  exists l. split; [set_solver|]. done.
Qed.

(** X5: whatever the text, the heuristic scan returns an integer and three
    lists of strings, and every point of the three lists is what one bullet
    line of the text, free of keywords, leaves when its marker and the
    surrounding white space are removed; no point is empty. *)
Theorem heuristic_points_from_bullets (rt : runtime) (response_text : str) :
  exists n cs ms ws,
    _fallback_parsing rt response_text =
      Ok (VInt n, str_list cs, str_list ms, str_list ws) /\
    is_str_list (str_list cs) = true /\ is_str_list (str_list ms) = true /\
    is_str_list (str_list ws) = true /\
    forall p, p ∈ cs ++ ms ++ ws -> from_bullet rt (split_on LF response_text) p.
Proof.
  assert (Hstr : forall l, is_str_list (str_list l) = true)
    by (intros l; unfold str_list; simpl; by induction l).
  destruct (seed_score rt response_text) as [n|e] eqn:Hseed.
  - rewrite (fallback_parsing_eq rt response_text n Hseed). cbv zeta.
    set (st := fold_left (scan_line rt) (split_on LF response_text) scan_start).
    exists n, (correct_points st), (missed_points st), (wrong_points st).
    split; [done|]. repeat (split; [apply Hstr|]).
    assert (Hall : forall s p, p ∈ points_of s st ->
              from_bullet rt (split_on LF response_text) p).
    { apply scan_points_from_bullets; [done|]. intros [] p Hp; by apply elem_of_nil in Hp. }
    intros p. rewrite !elem_of_app. intros [Hp|[Hp|Hp]].
    + by apply (Hall correct). + by apply (Hall missed). + by apply (Hall wrong).
  - exists 50, [], [], []. unfold _fallback_parsing. rewrite Hseed.
    split; [done|]. repeat (split; [done|]). intros p Hp. by apply elem_of_nil in Hp.
Qed.

Lemma scan_line_no_section rt st raw_line :
  keyword_free rt (strip raw_line) = true -> current_section st = None ->
  scan_line rt st raw_line = st.
Proof.
  intros Hk Hs. destruct (strip raw_line) as [|c l] eqn:E.
  { unfold scan_line. by rewrite E. }
  rewrite scan_line_eq by (by rewrite E). cbv zeta. rewrite E.
  unfold keyword_free in Hk. apply negb_true_iff in Hk.
  apply orb_false_iff in Hk as [Hk Hw]. apply orb_false_iff in Hk as [Hc Hm].
  rewrite Hc, Hm, Hw, Hs. by repeat case_match.
Qed.

(** X6: with no section keyword on any line the scan keeps no point, bullet
    lines included: a bullet counts only after a section line. *)
Theorem bullets_without_section_dropped (rt : runtime) (response_text : str) (n : Z) :
  forallb (fun line => keyword_free rt (strip line)) (split_on LF response_text) = true ->
  seed_score rt response_text = Ok n ->
  _fallback_parsing rt response_text = Ok (VInt n, VList [], VList [], VList []).
Proof.
  intros Hall Hseed. rewrite (fallback_parsing_eq rt response_text n Hseed). cbv zeta.
  assert (Hst : fold_left (scan_line rt) (split_on LF response_text) scan_start = scan_start).
  { revert Hall. generalize (split_on LF response_text). intros lines.
    induction lines as [|l lines IH]; intros Hall; [done|].
    simpl in Hall. apply andb_true_iff in Hall as [Hl Hrest].
    simpl. rewrite scan_line_no_section by done. by apply IH. }
  by rewrite Hst.
Qed.

Lemma bullets_without_section_dropped_witness :
  _fallback_parsing ascii_runtime (u "Accuracy score: 75
- the summary names the author
- the date is given
* the conclusion is there") = Ok (VInt 75, VList [], VList [], VList []).
Proof.
  apply bullets_without_section_dropped; reflexivity.
Defined.

(** ** The score of the heuristic scan *)

Lemma span_snd_forall f s a b : span f s = (a, b) -> forallb f a = true.
Proof.
  revert a b. induction s as [|c s IH]; intros a b; simpl.
  - by intros [= <- <-].
  - destruct (f c) eqn:Hc; [|by intros [= <- <-]].
    destruct (span f s) as [a' b'] eqn:E. intros [= <- <-].
    simpl. rewrite Hc. by eapply IH.
Qed.

Lemma match_score_digits rt s ds :
  match_score rt s = Some ds -> ds <> [] /\ forallb (isdecimal rt) ds = true.
Proof.
  unfold match_score. unfold mbind, option_bind. intros Hm.
  repeat case_match; simplify_eq.
  all: split; [done|]; eapply span_snd_forall; eassumption.
Qed.

Lemma search_score_digits rt s ds :
  search_score rt s = Some ds -> ds <> [] /\ forallb (isdecimal rt) ds = true.
Proof.
  induction s as [|c s IH]; cbn [search_score];
    destruct (match_score rt _) eqn:E; try done;
    intros [= <-]; by eapply match_score_digits.
Qed.

Lemma decimal_range rt c d : sane_digits rt -> decimal rt c = Some d -> 0 <= d <= 9.
Proof.
  intros Hsane. unfold decimal. destruct (c <? 128)%N; [|apply Hsane].
  unfold json.is_digit. destruct (N.leb_spec 48 c), (N.leb_spec c 57); simpl; try done.
  intros [= <-]. lia.
Qed.

Lemma digits_value_nonneg rt ds : forall acc n,
  sane_digits rt -> 0 <= acc -> digits_value rt acc ds = Some n -> 0 <= n.
Proof.
  induction ds as [|c ds IH]; intros acc n Hsane Hacc; simpl.
  - intros [= <-]. done.
  - destruct (decimal rt c) as [d|] eqn:E; [|done].
    apply decimal_range in E; [|done]. apply IH; [done | lia].
Qed.

Lemma digits_unsigned rt ds :
  ds <> [] -> forallb (isdecimal rt) ds = true -> json.expect 45 ds = None.
Proof.
  destruct ds as [|c ds]; [done|]. intros _. simpl.
  destruct (N.eqb_spec c 45) as [->|]; [|done]. done.
Qed.

(** X7: when the digits of the runtime have the values 0 to 9, the score of
    the heuristic scan is never negative, and it is 50 when the text has no
    accuracy score label. *)
Theorem heuristic_score_not_negative (rt : runtime) (response_text : str) :
  sane_digits rt ->
  exists n cs ms ws,
    _fallback_parsing rt response_text = Ok (VInt n, cs, ms, ws) /\
    0 <= n /\
    (search_score rt response_text = None -> n = 50).
Proof.
  intros Hsane.
  destruct (seed_score rt response_text) as [n|e] eqn:Hseed.
  - rewrite (fallback_parsing_eq rt response_text n Hseed). cbv zeta.
    do 4 eexists. split; [done|].
    unfold seed_score in Hseed.
    destruct (search_score rt response_text) as [ds|] eqn:Hs.
    + split; [|done]. apply search_score_digits in Hs as [Hne Hdec].
      unfold int in Hseed. rewrite (digits_unsigned rt ds Hne Hdec) in Hseed.
      destruct (_ && _ && _)%bool; [done|].
      destruct ds; [done|].
      destruct (digits_value rt 0 _) as [m|] eqn:Hm; [|done].
      injection Hseed as <-. by eapply digits_value_nonneg.
    + injection Hseed as <-. split; [lia | done].
  - unfold _fallback_parsing. rewrite Hseed. simpl.
    do 4 eexists. split; [done|]. split; [lia|].
    unfold seed_score in Hseed. by intros Hs; rewrite Hs in Hseed.
Qed.

Lemma heuristic_score_not_negative_witness :
  sane_digits ascii_runtime /\
  exists n cs ms ws,
    _fallback_parsing ascii_runtime (u "ACCURACY_SCORE:   007 of 100") =
      Ok (VInt n, cs, ms, ws) /\ 0 <= n.
Proof.
  assert (Hsane : sane_digits ascii_runtime) by (intros c d; discriminate).
  split; [exact Hsane|].
  destruct (heuristic_score_not_negative ascii_runtime
              (u "ACCURACY_SCORE:   007 of 100") Hsane) as (n & cs & ms & ws & H & Hn & _).
  by exists n, cs, ms, ws.
Defined.

(** X8: when the accuracy score label is followed by more digits than [int]
    converts, the conversion raises and the handler returns 50 and three
    empty lists, whatever the lines of the text hold. *)
Theorem heuristic_digit_limit (rt : runtime) (response_text digits : str) :
  search_score rt response_text = Some digits ->
  over_digit_limit rt (length digits) = true ->
  _fallback_parsing rt response_text = Ok (VInt 50, VList [], VList [], VList []).
Proof.
  intros Hs Hlim. unfold _fallback_parsing, seed_score. rewrite Hs.
  apply search_score_digits in Hs as [Hne Hdec].
  unfold int. rewrite (digits_unsigned rt digits Hne Hdec).
  unfold over_digit_limit in Hlim. by rewrite Hlim.
Qed.

Lemma heuristic_digit_limit_witness :
  _fallback_parsing ascii_runtime
    (u "Accuracy score: " ++ replicate 4301 57%N ++ u "
Correct:
- a point that is lost") = Ok (VInt 50, VList [], VList [], VList []).
Proof.
  apply (heuristic_digit_limit ascii_runtime _ (replicate 4301 57%N)).
  - vm_compute. reflexivity.
  - vm_compute. reflexivity.
Defined.

(** ** White space around a line *)

Lemma forallb_rev_true {A} (f : A -> bool) l :
  forallb f l = true -> forallb f (rev l) = true.
Proof.
  induction l as [|x l IH]; simpl; [done|].
  intros [Hx Hl]%andb_true_iff. rewrite forallb_app, IH by done. simpl. by rewrite Hx.
Qed.

Lemma lstrip_app s b :
  lstrip (s ++ b) = if forallb isspace s then lstrip b else lstrip s ++ b.
Proof.
  induction s as [|c s IH]; simpl; [done|].
  destruct (isspace c); simpl; [exact IH | done].
Qed.

Lemma lstrip_all_space s : forallb isspace s = true -> lstrip s = [].
Proof.
  induction s as [|c s IH]; simpl; [done|].
  destruct (isspace c); simpl; [exact IH | done].
Qed.

Lemma rstrip_app_space s b : forallb isspace b = true -> rstrip (s ++ b) = rstrip s.
Proof.
  intros Hb. unfold rstrip. rewrite rev_app_distr, lstrip_app.
  by rewrite (forallb_rev_true _ _ Hb).
Qed.

Lemma strip_pad a s b :
  forallb isspace a = true -> forallb isspace b = true ->
  strip (a ++ s ++ b) = strip s.
Proof.
  intros Ha Hb. unfold strip. rewrite lstrip_app, Ha, lstrip_app.
  destruct (forallb isspace s) eqn:Hs.
  - by rewrite (lstrip_all_space b Hb), (lstrip_all_space s Hs).
  - by apply rstrip_app_space.
Qed.

(** X9: white space before and after a line changes nothing in what the
    scan does with the line: indented bullets and section lines count as
    they do at the margin. *)
Theorem scan_line_ignores_padding (rt : runtime) (st : scan_state)
    (before line after : str) :
  forallb isspace before = true -> forallb isspace after = true ->
  scan_line rt st (before ++ line ++ after) = scan_line rt st line.
Proof.
  intros Ha Hb. unfold scan_line. by rewrite (strip_pad before line after Ha Hb).
Qed.

Lemma scan_line_ignores_padding_witness :
  let st := {| current_section := Some wrong; correct_points := [];
               missed_points := []; wrong_points := [] |} in
  scan_line ascii_runtime st (u "      " ++ u "- the year is 1999" ++ [9%N; 13%N]) =
  append_point st wrong (u "the year is 1999").
Proof.
  intros st.
  rewrite (scan_line_ignores_padding ascii_runtime st (u "      ")
             (u "- the year is 1999") [9%N; 13%N] eq_refl eq_refl).
  reflexivity.
Defined.

(** ** More on the local overlap scorer *)

(** X10: a summary that holds every word of a reference with at least one
    word scores 100, whatever else it holds. *)
Theorem superset_scores_100 (rt : runtime) (original_text summary_text : str) :
  words rt original_text ≠ ∅ ->
  words rt original_text ⊆ words rt summary_text ->
  _simple_comparison rt original_text summary_text =
    Ok (VInt 100, placeholder_correct, placeholder_missed, VList []).
Proof.
  intros Hne Hsub. rewrite simple_comparison_eq. cbv zeta.
  rewrite (subseteq_intersection_1_L _ _ Hsub).
  pose proof (words_nonempty_size _ Hne).
  destruct (Z.ltb_spec 0 (Z.of_nat (size (words rt original_text)))); [|lia].
  by rewrite percent_all.
Qed.

Lemma superset_scores_100_witness :
  _simple_comparison ascii_runtime (u "The cat sat")
    (u "sat cat THE and many other words that the text never had") =
    Ok (VInt 100, placeholder_correct, placeholder_missed, VList []).
Proof.
  apply superset_scores_100.
  - vm_compute. discriminate.
  - apply (bool_decide_eq_true_1 _). vm_compute. reflexivity.
Defined.

(** ** The constructor and the prompt *)

(** X11: a service built without the API key, or with an empty one, has no
    model and answers every comparison with the local overlap scorer; built
    with a key it sends the prompt once to the client of the model
    gemma-3n-e4b-it and interprets the answer, and falls back to the local
    scorer when the client raises. *)
Theorem service_without_key_is_local (rt : runtime) (GOOGLE_API_KEY : option str)
    (genai : str -> str -> str -> result str)
    (original_text summary_text reading_mode : str) :
  let self := __init__ GOOGLE_API_KEY genai in
  let local := _simple_comparison rt original_text summary_text in
  let prompt := _create_comparison_prompt original_text summary_text reading_mode in
  (GOOGLE_API_KEY = None \/ GOOGLE_API_KEY = Some [] ->
     is_available self = false /\
     compare_texts rt self original_text summary_text reading_mode = local) /\
  (forall key, GOOGLE_API_KEY = Some key -> key <> [] ->
     is_available self = true /\
     (forall response_text,
        genai key (u "gemma-3n-e4b-it") prompt = Ok response_text ->
        compare_texts rt self original_text summary_text reading_mode =
          _parse_comparison_response rt response_text) /\
     (forall e,
        genai key (u "gemma-3n-e4b-it") prompt = Raise e ->
        compare_texts rt self original_text summary_text reading_mode = local)).
Proof.
  intros self local prompt. split.
  - intros [-> | ->]; by split.
  - intros [|c key] -> Hne; [done|]. split; [done|]. split.
    + intros response_text Hr. unfold compare_texts, model_tier, generate_content.
      simpl. fold prompt. rewrite Hr. simpl.
      by destruct (parse_comparison_response_returns rt response_text) as [r ->].
    + intros e He. unfold compare_texts, model_tier, generate_content.
      simpl. fold prompt. by rewrite He.
Qed.

Lemma service_without_key_is_local_witness :
  let genai := fun (key name prompt : str) =>
    if str_eqb key (u "secret")
    then Ok (u "{`accuracy_score`: 91}")
    else Raise (ModelError (u "API key not valid")) in
  compare_texts ascii_runtime (__init__ (Some []) genai) (u "a b") (u "a") (u "study") =
    Ok (VInt 50, placeholder_correct, placeholder_missed, VList []) /\
  compare_texts ascii_runtime (__init__ (Some (u "secret")) genai) (u "a b") (u "a") (u "study") =
    Ok (VInt 91, VList [], VList [], VList []) /\
  compare_texts ascii_runtime (__init__ (Some (u "wrong")) genai) (u "a b") (u "a") (u "study") =
    Ok (VInt 50, placeholder_correct, placeholder_missed, VList []).
Proof.
  intros genai.
  destruct (service_without_key_is_local ascii_runtime (Some []) genai
              (u "a b") (u "a") (u "study")) as (H1 & _).
  destruct (service_without_key_is_local ascii_runtime (Some (u "secret")) genai
              (u "a b") (u "a") (u "study")) as (_ & H2).
  destruct (service_without_key_is_local ascii_runtime (Some (u "wrong")) genai
              (u "a b") (u "a") (u "study")) as (_ & H3).
  split; [|split].
  - destruct H1 as (_ & ->); [by right | reflexivity].
  - destruct (H2 _ eq_refl) as (_ & H & _); [discriminate|].
    rewrite (H (u "{`accuracy_score`: 91}")); reflexivity.
  - destruct (H3 _ eq_refl) as (_ & _ & H); [discriminate|].
    rewrite (H (ModelError (u "API key not valid"))); reflexivity.
Defined.

(** X12: the prompt is a fixed template that holds the original text and,
    after it, the summary, both verbatim; the reading mode does not occur in
    it, so the result of [compare_texts] does not depend on the reading
    mode. *)
Theorem reading_mode_has_no_effect (rt : runtime) :
  (exists head middle tail,
     forall original_text summary_text reading_mode,
       _create_comparison_prompt original_text summary_text reading_mode =
         head ++ original_text ++ middle ++ summary_text ++ tail) /\
  (forall original_text summary_text reading_mode,
     contains (_create_comparison_prompt original_text summary_text reading_mode)
              original_text = true /\
     contains (_create_comparison_prompt original_text summary_text reading_mode)
              summary_text = true) /\
  (forall self original_text summary_text mode1 mode2,
     compare_texts rt self original_text summary_text mode1 =
     compare_texts rt self original_text summary_text mode2).
Proof.
  assert (Htemplate : exists head middle tail,
     forall original_text summary_text reading_mode,
       _create_comparison_prompt original_text summary_text reading_mode =
         head ++ original_text ++ middle ++ summary_text ++ tail).
  { eexists _, _, _. intros o s m. unfold _create_comparison_prompt. cbv zeta.
    reflexivity. }
  split; [exact Htemplate|]. destruct Htemplate as (head & middle & tail & Hp).
  split.
  - intros o s m. rewrite Hp. split; apply contains_spec.
    + by exists head, (middle ++ s ++ tail).
    + exists (head ++ o ++ middle), tail. by rewrite <- !app_assoc.
  - intros self o s m1 m2. unfold compare_texts, model_tier.
    by rewrite (Hp o s m1), (Hp o s m2).
Qed.

(** X13: the lookup of the mode description gives each of the eight modes its
    own description and every other mode name the description of the mode
    detailed. *)
Theorem unknown_mode_is_detailed (reading_mode : str) :
  let detailed := mode_get mode_descriptions (u "detailed") [] in
  detailed = u "Comprehensive analysis of all content and details" /\
  (reading_mode ∉ map fst mode_descriptions ->
     mode_get mode_descriptions reading_mode detailed = detailed) /\
  (forall description, (reading_mode, description) ∈ mode_descriptions ->
     mode_get mode_descriptions reading_mode detailed = description).
Proof.
  intros detailed. split; [reflexivity|]. split.
  - intros Hnot. unfold mode_descriptions in *. cbn [map fst] in Hnot.
    cbn [mode_get]. unfold str_eqb.
    repeat (rewrite bool_decide_eq_false_2;
            [|intros <-; apply Hnot;
              repeat (apply elem_of_cons; first [by left | right])]).
    reflexivity.
  - intros description Hin. unfold mode_descriptions in Hin.
    repeat (apply elem_of_cons in Hin as [[= -> ->]|Hin]; [reflexivity|]).
    by apply elem_of_nil in Hin.
Qed.

Lemma unknown_mode_is_detailed_witness :
  mode_get mode_descriptions (u "speed-reading")
    (mode_get mode_descriptions (u "detailed") []) =
    u "Comprehensive analysis of all content and details" /\
  mode_get mode_descriptions (u "critical")
    (mode_get mode_descriptions (u "detailed") []) =
    u "Analysis and evaluation of arguments and evidence".
Proof.
  destruct (unknown_mode_is_detailed (u "speed-reading")) as (_ & H1 & _).
  destruct (unknown_mode_is_detailed (u "critical")) as (_ & _ & H2).
  split.
  - apply H1. intros Hin.
    repeat (apply elem_of_cons in Hin as [Hin|Hin]; [discriminate|]).
    by apply elem_of_nil in Hin.
  - apply H2. repeat (apply elem_of_cons; first [by left | right]).
Defined.

(** ** Which tier reads the text *)

(** X14: a text without an opening brace, or without a closing brace, is
    read by the heuristic scan. *)
Theorem no_braces_is_heuristic (rt : runtime) (response_text : str) :
  123%N ∉ response_text \/ 125%N ∉ response_text ->
  search_braces response_text = None /\
  _parse_comparison_response rt response_text = _fallback_parsing rt response_text.
Proof.
  intros Hno.
  assert (Hs : search_braces response_text = None).
  { destruct (search_braces response_text) as [j|] eqn:E; [|done].
    apply search_braces_some in E as (before & body & after & -> & -> & _).
    exfalso. destruct Hno as [Hno|Hno]; apply Hno.
    - rewrite !elem_of_app. right. left. apply elem_of_cons. by left.
    - rewrite !elem_of_app. right. left. apply elem_of_cons. right.
      rewrite elem_of_app. right. apply elem_of_cons. by left. }
  split; [exact Hs|].
  apply undecodable_fallback. unfold undecodable. by rewrite Hs.
Qed.

Lemma no_braces_is_heuristic_witness :
  _parse_comparison_response ascii_runtime (u "score {unfinished
Accuracy score: 40") = Ok (VInt 40, VList [], VList [], VList []).
Proof.
  destruct (no_braces_is_heuristic ascii_runtime (u "score {unfinished
Accuracy score: 40")) as (_ & ->); [|reflexivity].
  right. intros Hin.
  repeat (apply elem_of_cons in Hin as [Hin|Hin]; [discriminate|]).
  by apply elem_of_nil in Hin.
Defined.

(** ** The first label *)

Lemma search_score_here rt s ds :
  match_score rt s = Some ds -> search_score rt s = Some ds.
Proof. intros H. destruct s; cbn [search_score]; by rewrite H. Qed.

Lemma search_score_next rt c s :
  match_score rt (c :: s) = None -> search_score rt (c :: s) = search_score rt s.
Proof. intros H. cbn [search_score]. by rewrite H. Qed.

(** X15: the score is read from the leftmost place of the text where the
    accuracy score label matches; labels further right are not read. *)
Theorem seed_is_first_label (rt : runtime) (response_text digits : str) :
  search_score rt response_text = Some digits <->
  exists before rest,
    response_text = before ++ rest /\
    match_score rt rest = Some digits /\
    forall skipped later, before = skipped ++ later -> later <> [] ->
      match_score rt (later ++ rest) = None.
Proof.
  split.
  - revert digits. induction response_text as [|c s IH]; intros ds Hs.
    + exists [], []. cbn [search_score] in Hs.
      destruct (match_score rt []) eqn:E; [|done]. injection Hs as ->.
      split; [done|]. split; [done|]. intros [] later [= <-]. done.
    + destruct (match_score rt (c :: s)) as [ds'|] eqn:E.
      * rewrite (search_score_here rt _ _ E) in Hs. injection Hs as ->.
        exists [], (c :: s). split; [done|]. split; [done|].
        intros [] later [= <-]. done.
      * rewrite (search_score_next rt _ _ E) in Hs.
        destruct (IH _ Hs) as (before & rest & -> & Hm & Hfirst).
        exists (c :: before), rest. split; [done|]. split; [done|].
        intros [|c' skipped] later Heq Hne.
        -- simpl in Heq. subst later. exact E.
        -- injection Heq as <- ->. by eapply Hfirst.
  - intros (before & rest & -> & Hm & Hfirst).
    induction before as [|c before IH]; [by apply search_score_here|].
    rewrite <- app_comm_cons, search_score_next.
    + apply IH. intros skipped later -> Hne.
      by apply (Hfirst (c :: skipped) later).
    + by apply (Hfirst [] (c :: before)).
Qed.

Lemma seed_is_first_label_witness :
  search_score ascii_runtime (u "My accuracy score: 70; the accuracy score 90 was last week")
    = Some (u "70").
Proof.
  apply seed_is_first_label.
  exists (u "My "), (u "accuracy score: 70; the accuracy score 90 was last week").
  split; [reflexivity|]. split; [reflexivity|].
  intros skipped later Heq Hne.
  change (u "My ") with [77%N; 121%N; 32%N] in Heq.
  destruct skipped as [|? [|? [|? [|? ?]]]]; simplify_eq/=; try reflexivity; done.
Defined.

(** ** The order of the points *)

Lemma scan_line_step rt st raw_line :
  (forall s, points_of s (scan_line rt st raw_line) = points_of s st) \/
  (exists s0,
     points_of s0 (scan_line rt st raw_line) = points_of s0 st ++ [bullet_text raw_line] /\
     forall s, s <> s0 -> points_of s (scan_line rt st raw_line) = points_of s st).
Proof.
  destruct (strip raw_line) as [|c l] eqn:E.
  { left. intros s. unfold scan_line. by rewrite E. }
  rewrite scan_line_eq by (by rewrite E). cbv zeta. unfold bullet_text. rewrite E.
  destruct (says_correct rt (c :: l)); [left; intros; apply points_of_set_section|].
  destruct (says_missed rt (c :: l)); [left; intros; apply points_of_set_section|].
  destruct (says_wrong rt (c :: l)); [left; intros; apply points_of_set_section|].
  destruct (is_bullet (c :: l)); [|by left].
  destruct (strip (drop 1 (c :: l))) as [|c' p'] eqn:Ep; [by left|].
  destruct (current_section st) as [s0|]; [|by left].
  right. exists s0. split; [apply points_of_append_same|].
  intros s Hs. by apply points_of_append_other.
Qed.

Lemma scan_in_order rt lines : forall st,
  exists cs ms ws,
    let st' := fold_left (scan_line rt) lines st in
    correct_points st' = correct_points st ++ cs /\
    missed_points st' = missed_points st ++ ms /\
    wrong_points st' = wrong_points st ++ ws /\
    cs `sublist_of` map bullet_text lines /\
    ms `sublist_of` map bullet_text lines /\
    ws `sublist_of` map bullet_text lines /\
    (length cs + length ms + length ws <= length lines)%nat.
Proof.
  induction lines as [|l lines IH]; intros st.
  { exists [], [], []. simpl. rewrite !app_nil_r. repeat split; try done; lia. }
  destruct (IH (scan_line rt st l)) as (cs & ms & ws & Hc & Hm & Hw & Sc & Sm & Sw & Hlen).
  cbv zeta in *. cbn [fold_left map length].
  destruct (scan_line_step rt st l) as [Hsame|(s0 & Hadd & Hother)].
  - exists cs, ms, ws.
    pose proof (Hsame correct) as H1. pose proof (Hsame missed) as H2.
    pose proof (Hsame wrong) as H3. simpl in H1, H2, H3.
    rewrite Hc, Hm, Hw, H1, H2, H3.
    repeat split; try done; try (by apply sublist_cons). lia.
  - destruct s0.
    + exists (bullet_text l :: cs), ms, ws.
      pose proof (Hother missed ltac:(done)) as H2.
      pose proof (Hother wrong ltac:(done)) as H3. simpl in Hadd, H2, H3.
      rewrite Hc, Hm, Hw, Hadd, H2, H3, <- app_assoc.
      repeat split; try done; try (by apply sublist_cons);
        try (by apply sublist_skip). simpl. lia.
    + exists cs, (bullet_text l :: ms), ws.
      pose proof (Hother correct ltac:(done)) as H1.
      pose proof (Hother wrong ltac:(done)) as H3. simpl in Hadd, H1, H3.
      rewrite Hc, Hm, Hw, Hadd, H1, H3, <- app_assoc.
      repeat split; try done; try (by apply sublist_cons);
        try (by apply sublist_skip). simpl. lia.
    + exists cs, ms, (bullet_text l :: ws).
      pose proof (Hother correct ltac:(done)) as H1.
      pose proof (Hother missed ltac:(done)) as H2. simpl in Hadd, H1, H2.
      rewrite Hc, Hm, Hw, Hadd, H1, H2, <- app_assoc.
      repeat split; try done; try (by apply sublist_cons);
        try (by apply sublist_skip). simpl. lia.
Qed.

(** X16: the heuristic scan keeps the order of the text: each of the three
    lists is a subsequence of what the lines of the text leave as bullet
    text, in the order of the lines; and a line gives at most one point, so
    the three lists together have at most as many points as the text has
    lines. *)
Theorem heuristic_points_in_order (rt : runtime) (response_text : str) :
  exists n cs ms ws,
    _fallback_parsing rt response_text =
      Ok (VInt n, str_list cs, str_list ms, str_list ws) /\
    let texts := map bullet_text (split_on LF response_text) in
    cs `sublist_of` texts /\ ms `sublist_of` texts /\ ws `sublist_of` texts /\
    (length cs + length ms + length ws <= length (split_on LF response_text))%nat.
Proof.
  destruct (seed_score rt response_text) as [n|e] eqn:Hseed.
  - rewrite (fallback_parsing_eq rt response_text n Hseed). cbv zeta.
    destruct (scan_in_order rt (split_on LF response_text) scan_start)
      as (cs & ms & ws & Hc & Hm & Hw & Sc & Sm & Sw & Hlen).
    cbv zeta in *. simpl in Hc, Hm, Hw. rewrite Hc, Hm, Hw.
    by exists n, cs, ms, ws.
  - exists 50, [], [], []. unfold _fallback_parsing. rewrite Hseed.
    split; [done|]. cbv zeta. repeat split; try apply sublist_nil_l. simpl. lia.
Qed.

(** ** Rounding is monotone *)
Section float_order.
Import float.

Lemma pow2_pos k : 0 <= k -> 0 < 2 ^ k.
Proof. intros. by apply Z.pow_pos_nonneg. Qed.

Lemma pow2_split e M :
  0 <= M -> 0 <= e + M -> 2 ^ Z.max 0 e * 2 ^ M = 2 ^ Z.max 0 (- e) * 2 ^ (e + M).
Proof.
  intros HM HeM. rewrite <- !Z.pow_add_r by lia. f_equal. lia.
Qed.

Lemma rne_ge n d J : 0 < d -> J * d <= n -> J <= rne n d.
Proof.
  intros Hd HJ. unfold rne.
  assert (J <= n / d) by (apply Z.div_le_lower_bound; lia).
  repeat case_match; lia.
Qed.

Lemma rne_mono n d n' d' :
  0 <= n -> 0 < d -> 0 <= n' -> 0 < d' -> n * d' <= n' * d -> rne n d <= rne n' d'.
Proof.
  intros Hn Hd Hn' Hd' Hle. unfold rne.
  pose proof (Z.div_mod n d ltac:(lia)) as E.
  pose proof (Z.mod_pos_bound n d Hd) as Hr.
  pose proof (Z.div_mod n' d' ltac:(lia)) as E'.
  pose proof (Z.mod_pos_bound n' d' Hd') as Hr'.
  set (q := n / d) in *. set (r := n mod d) in *.
  set (q' := n' / d') in *. set (r' := n' mod d') in *.
  assert (Hq : q <= q').
  { destruct (Z.le_gt_cases q q') as [|Hgt]; [done|]. exfalso.
    assert (d * (q' + 1) <= n) by nia.
    assert (n' < d' * (q' + 1)) by lia.
    assert (d * (q' + 1) * d' <= n * d') by (apply Z.mul_le_mono_nonneg_r; lia).
    assert (n' * d < d' * (q' + 1) * d) by (apply Z.mul_lt_mono_pos_r; lia).
    lia. }
  destruct (Z.eq_dec q q') as [Heq|Hne].
  - rewrite <- Heq in *.
    assert (Hrr : r * d' <= r' * d) by nia.
    destruct (Z.ltb_spec (2 * r) d); [repeat case_match; lia|].
    destruct (Z.ltb_spec d (2 * r)).
    + assert (d' < 2 * r') by nia.
      destruct (Z.ltb_spec (2 * r') d'); [lia|].
      destruct (Z.ltb_spec d' (2 * r')); lia.
    + assert (d' <= 2 * r') by nia.
      destruct (Z.ltb_spec (2 * r') d'); [lia|].
      repeat case_match; lia.
  - repeat case_match; lia.
Qed.

(** [ilog2 n d] is the binade of [n / d]. *)
Lemma ilog2_spec n d M :
  0 < n -> 0 < d -> 0 <= M -> 0 <= ilog2 n d + M ->
  d * 2 ^ (ilog2 n d + M) <= n * 2 ^ M < d * 2 ^ (ilog2 n d + M + 1).
Proof.
  intros Hn Hd HM. unfold ilog2.
  pose proof (Z.log2_spec n Hn) as [Ha1 Ha2].
  pose proof (Z.log2_spec d Hd) as [Hb1 Hb2].
  pose proof (Z.log2_nonneg n) as Ha. pose proof (Z.log2_nonneg d) as Hb.
  set (a := Z.log2 n) in *. set (b := Z.log2 d) in *.
  unfold Z.succ in *.
  pose proof (pow2_pos M HM) as HpM.
  assert (Htest : forall k, 0 <= k + M ->
            ((if 0 <=? k then d * 2 ^ k <=? n else d <=? n * 2 ^ (- k)) = true
             <-> d * 2 ^ (k + M) <= n * 2 ^ M)).
  { intros k Hk. destruct (Z.leb_spec 0 k).
    - rewrite Z.leb_le, Z.pow_add_r by lia.
      rewrite (Z.mul_le_mono_pos_r (d * 2 ^ k) n (2 ^ M)) by lia.
      by rewrite Z.mul_assoc.
    - rewrite Z.leb_le.
      assert (2 ^ M = 2 ^ (- k) * 2 ^ (k + M)) as ->
        by (rewrite <- Z.pow_add_r by lia; f_equal; lia).
      pose proof (pow2_pos (k + M) Hk).
      rewrite (Z.mul_le_mono_pos_r d (n * 2 ^ (- k)) (2 ^ (k + M))) by lia.
      by rewrite Z.mul_assoc. }
  destruct (if 0 <=? a - b then _ else _) eqn:T; intros Hk.
  - apply (Htest (a - b) Hk) in T. split; [exact T|].
    assert (n * 2 ^ M < 2 ^ (a + 1) * 2 ^ M) by nia.
    assert (2 ^ (a + 1) * 2 ^ M = 2 ^ b * 2 ^ (a - b + M + 1)).
    { rewrite <- !Z.pow_add_r by lia. f_equal. lia. }
    pose proof (pow2_pos (a - b + M + 1) ltac:(lia)). nia.
  - assert (Hk0 : 0 <= a - b + M) by lia.
    pose proof (Htest (a - b) Hk0) as Hiff. rewrite T in Hiff.
    replace (a - b - 1 + M + 1) with (a - b + M) by lia.
    split; [|destruct (Z.le_gt_cases (d * 2 ^ (a - b + M)) (n * 2 ^ M)) as [Hc|]; [|done];
             apply Hiff in Hc; done].
    assert (2 ^ (b + 1) * 2 ^ (a - b - 1 + M) = 2 ^ a * 2 ^ M).
    { rewrite <- !Z.pow_add_r by lia. f_equal. lia. }
    pose proof (pow2_pos (a - b - 1 + M) ltac:(lia)). nia.
Qed.

Lemma ilog2_mono n d n' d' :
  0 < n -> 0 < d -> 0 < n' -> 0 < d' -> n * d' <= n' * d ->
  ilog2 n d <= ilog2 n' d'.
Proof.
  intros Hn Hd Hn' Hd' Hle.
  destruct (Z.le_gt_cases (ilog2 n d) (ilog2 n' d')) as [|Hgt]; [done|]. exfalso.
  set (k := ilog2 n d) in *. set (k' := ilog2 n' d') in *.
  set (M := Z.abs k + Z.abs k').
  destruct (ilog2_spec n d M Hn Hd ltac:(lia) ltac:(fold k; lia)) as [H1 _].
  destruct (ilog2_spec n' d' M Hn' Hd' ltac:(lia) ltac:(fold k'; lia)) as [_ H2].
  fold k in H1. fold k' in H2.
  assert (2 ^ (k' + M + 1) <= 2 ^ (k + M)) by (apply Z.pow_le_mono_r; lia).
  pose proof (pow2_pos M ltac:(lia)). pose proof (pow2_pos (k' + M + 1) ltac:(lia)).
  nia.
Qed.

Lemma round_eq n d :
  n <> 0 ->
  let e := ilog2 n d - 52 in
  round n d = {| mant := rne (n * 2 ^ Z.max 0 (- e)) (d * 2 ^ Z.max 0 e); expo := e |}.
Proof.
  intros Hn e. unfold round. destruct (Z.eqb_spec n 0); [done|]. fold e.
  f_equal. destruct (Z.leb_spec 0 e).
  - rewrite (Z.max_l 0 (- e)), (Z.max_r 0 e) by lia. by rewrite Z.mul_1_r.
  - rewrite (Z.max_r 0 (- e)), (Z.max_l 0 e) by lia. by rewrite Z.mul_1_r.
Qed.

(** The scaled fraction lies in the binade of 2^52. *)
Lemma round_scaled n d :
  0 < n -> 0 < d ->
  let e := ilog2 n d - 52 in
  2 ^ 52 * (d * 2 ^ Z.max 0 e) <= n * 2 ^ Z.max 0 (- e)
    < 2 ^ 53 * (d * 2 ^ Z.max 0 e).
Proof.
  intros Hn Hd e.
  destruct (ilog2_spec n d (Z.max 0 (- e)) Hn Hd ltac:(lia) ltac:(lia)) as [H1 H2].
  replace (ilog2 n d + Z.max 0 (- e)) with (Z.max 0 e + 52) in * by lia.
  replace (Z.max 0 e + 52 + 1) with (Z.max 0 e + 53) in * by lia.
  rewrite Z.pow_add_r in H1, H2 by lia. lia.
Qed.

Lemma round_num_nonneg n d : 0 <= n -> 0 < d -> 0 <= float_num (round n d).
Proof.
  intros Hn Hd. destruct (Z.eq_dec n 0) as [->|Hn0]; [done|].
  rewrite (round_eq n d Hn0). cbv zeta. unfold float_num. cbn [mant expo].
  apply Z.mul_nonneg_nonneg; [|apply Z.pow_nonneg; lia].
  apply rne_nonneg.
  - apply Z.mul_nonneg_nonneg; [lia | apply Z.pow_nonneg; lia].
  - apply Z.mul_pos_pos; [done | apply pow2_pos; lia].
Qed.

Lemma float_den_pos x : 0 < float_den x.
Proof. apply pow2_pos. lia. Qed.

(** Rounding to a double is monotone. *)
Lemma round_mono n d n' d' :
  0 <= n -> 0 < d -> 0 <= n' -> 0 < d' -> n * d' <= n' * d ->
  float_le (round n d) (round n' d').
Proof.
  intros Hn Hd Hn' Hd' Hle. unfold float_le.
  destruct (Z.eq_dec n 0) as [->|Hn0].
  { change (round 0 d) with {| mant := 0; expo := 0 |}.
    unfold float_num at 1. simpl mant. rewrite !Z.mul_0_l.
    apply Z.mul_nonneg_nonneg; [by apply round_num_nonneg|].
    pose proof (float_den_pos {| mant := 0; expo := 0 |}). lia. }
  assert (Hn'0 : 0 < n') by nia.
  rewrite (round_eq n d Hn0), (round_eq n' d') by lia. cbv zeta.
  pose proof (round_scaled n d ltac:(lia) Hd) as Hs.
  pose proof (round_scaled n' d' Hn'0 Hd') as Hs'.
  pose proof (ilog2_mono n d n' d' ltac:(lia) Hd Hn'0 Hd' Hle) as Hk.
  cbv zeta in Hs, Hs'.
  set (e := ilog2 n d - 52) in *. set (e' := ilog2 n' d' - 52) in *.
  unfold float_num, float_den. cbn [mant expo].
  set (A := 2 ^ Z.max 0 (- e)) in *. set (B := 2 ^ Z.max 0 e) in *.
  set (A' := 2 ^ Z.max 0 (- e')) in *. set (B' := 2 ^ Z.max 0 e') in *.
  assert (HA : 0 < A) by (apply pow2_pos; lia).
  assert (HB : 0 < B) by (apply pow2_pos; lia).
  assert (HA' : 0 < A') by (apply pow2_pos; lia).
  assert (HB' : 0 < B') by (apply pow2_pos; lia).
  set (m := rne (n * A) (d * B)). set (m' := rne (n' * A') (d' * B')).
  destruct (Z.eq_dec e e') as [Heq|Hne].
  - assert (A' = A) as -> by (subst A A'; by rewrite Heq).
    assert (B' = B) as -> by (subst B B'; by rewrite Heq).
    assert (m <= m') by (apply rne_mono; nia).
    apply Z.mul_le_mono_nonneg_r; [lia|]. apply Z.mul_le_mono_nonneg_r; lia.
  - assert (Hm : m <= 2 ^ 53) by (apply rne_le; nia).
    assert (Hm' : 2 ^ 52 <= m') by (apply rne_ge; nia).
    assert (Hpow : 2 * (B * A') <= B' * A).
    { set (M := Z.abs e + Z.abs e').
      pose proof (pow2_split e M ltac:(lia) ltac:(lia)) as E1.
      pose proof (pow2_split e' M ltac:(lia) ltac:(lia)) as E2.
      fold A B in E1. fold A' B' in E2.
      assert (2 * 2 ^ (e + M) <= 2 ^ (e' + M)).
      { replace (2 * 2 ^ (e + M)) with (2 ^ (e + M + 1))
          by (rewrite Z.pow_add_r by lia; lia).
        apply Z.pow_le_mono_r; lia. }
      pose proof (pow2_pos M ltac:(lia)) as HM.
      pose proof (pow2_pos (e + M) ltac:(lia)).
      apply (Z.mul_le_mono_pos_r _ _ (2 ^ M) HM).
      replace (2 * (B * A') * 2 ^ M) with (A' * (2 * (B * 2 ^ M))) by lia.
      replace (B' * A * 2 ^ M) with (A * (B' * 2 ^ M)) by lia.
      rewrite E1, E2. nia. }
    assert (0 <= m) by (apply rne_nonneg; nia).
    change (2 ^ 53) with (2 * 2 ^ 52) in Hm.
    assert (m * (B * A') <= 2 ^ 52 * (2 * (B * A'))) by nia.
    assert (2 ^ 52 * (B' * A) <= m' * (B' * A)) by nia.
    nia.
Qed.

Lemma mul_int_eq x k : mul_int x k = round (float_num x * k) (float_den x).
Proof.
  unfold mul_int, float_num, float_den. destruct (Z.leb_spec 0 (expo x)).
  - by rewrite (Z.max_r 0 (expo x)), (Z.max_l 0 (- expo x)) by lia.
  - rewrite (Z.max_l 0 (expo x)), (Z.max_r 0 (- expo x)) by lia.
    by rewrite Z.mul_1_r.
Qed.

Lemma to_int_eq x : to_int x = float_num x / float_den x.
Proof.
  unfold to_int, float_num, float_den. destruct (Z.leb_spec 0 (expo x)).
  - rewrite (Z.max_r 0 (expo x)), (Z.max_l 0 (- expo x)) by lia. by rewrite Z.div_1_r.
  - rewrite (Z.max_l 0 (expo x)), (Z.max_r 0 (- expo x)) by lia.
    by rewrite Z.mul_1_r.
Qed.

Lemma to_int_mono x y : float_le x y -> to_int x <= to_int y.
Proof.
  unfold float_le. intros Hle. rewrite !to_int_eq.
  pose proof (float_den_pos x) as Hx. pose proof (float_den_pos y) as Hy.
  set (a := float_num x) in *. set (b := float_den x) in *.
  set (c := float_num y) in *. set (d := float_den y) in *.
  apply Z.div_le_lower_bound; [done|].
  pose proof (Z.mul_div_le a b Hx).
  assert (d * (a / b) * b <= c * b) by nia.
  apply (Z.mul_le_mono_pos_r _ _ b Hx). lia.
Qed.
End float_order.

(** More overlap never lowers the percentage. *)
Lemma percent_mono a a' b :
  0 <= a <= a' -> 0 < b -> percent a b <= percent a' b.
Proof.
  intros Ha Hb. unfold percent. apply to_int_mono.
  rewrite !mul_int_eq.
  pose proof (round_mono a b a' b ltac:(lia) Hb ltac:(lia) Hb ltac:(nia)) as Hq.
  unfold float_le in Hq. unfold float.true_divide.
  apply round_mono; try apply float_den_pos.
  - apply Z.mul_nonneg_nonneg; [apply round_num_nonneg|]; lia.
  - apply Z.mul_nonneg_nonneg; [apply round_num_nonneg|]; lia.
  - nia.
Qed.

(** X17: a summary that holds more of the words never scores lower: when the
    words of one summary are among the words of another, the local overlap
    score of the first is at most the score of the second, for the same
    original text. *)
Theorem more_words_never_score_lower (rt : runtime)
    (original_text summary1 summary2 : str) :
  words rt summary1 ⊆ words rt summary2 ->
  exists n1 n2,
    _simple_comparison rt original_text summary1 =
      Ok (VInt n1, placeholder_correct, placeholder_missed, VList []) /\
    _simple_comparison rt original_text summary2 =
      Ok (VInt n2, placeholder_correct, placeholder_missed, VList []) /\
    n1 <= n2.
Proof.
  intros Hsub. rewrite !simple_comparison_eq. cbv zeta.
  set (A := words rt original_text).
  set (o1 := Z.of_nat (size (A ∩ words rt summary1))).
  set (o2 := Z.of_nat (size (A ∩ words rt summary2))).
  set (total := Z.of_nat (size A)).
  do 2 eexists. split; [reflexivity|]. split; [reflexivity|].
  assert (Ho : 0 <= o1 <= o2).
  { split; [lia|]. apply inj_le, subseteq_size.
    intros w. rewrite !elem_of_intersection. intros [? ?]. split; [done|]. by apply Hsub. }
  destruct (Z.ltb_spec 0 total); [|lia].
  pose proof (percent_mono o1 o2 total Ho ltac:(lia)). lia.
Qed.

Lemma more_words_never_score_lower_witness :
  exists n1 n2,
    _simple_comparison ascii_runtime (u "one two three four five six seven") (u "two six") =
      Ok (VInt n1, placeholder_correct, placeholder_missed, VList []) /\
    _simple_comparison ascii_runtime (u "one two three four five six seven")
      (u "six five two and ten") =
      Ok (VInt n2, placeholder_correct, placeholder_missed, VList []) /\
    n1 <= n2.
Proof.
  apply more_words_never_score_lower.
  apply (bool_decide_eq_true_1 _). vm_compute. reflexivity.
Defined.

Lemma percent_below_100 a b : 0 <= a < b -> b <= 2 ^ 53 -> percent a b <= 99.
Proof.
  intros Ha Hb.
  change 99 with (float.to_int (float.mul_int (float.round (2 ^ 53 - 1) (2 ^ 53)) 100)).
  unfold percent, float.true_divide. apply to_int_mono. rewrite !mul_int_eq.
  assert (Hq : float_le (float.round a b) (float.round (2 ^ 53 - 1) (2 ^ 53))).
  { apply round_mono; lia. }
  unfold float_le in Hq.
  apply round_mono; try apply float_den_pos.
  - apply Z.mul_nonneg_nonneg; [apply round_num_nonneg|]; lia.
  - done.
  - nia.
Qed.

(** X18: for a reference of at least one and at most 2^53 words, the local
    overlap score is 100 exactly when every word of the reference is in the
    summary; one missing word brings it to 99 or less. *)
Theorem full_score_means_full_coverage (rt : runtime) (original_text summary_text : str) :
  words rt original_text ≠ ∅ ->
  Z.of_nat (size (words rt original_text)) <= 2 ^ 53 ->
  (_simple_comparison rt original_text summary_text =
     Ok (VInt 100, placeholder_correct, placeholder_missed, VList [])
   <-> words rt original_text ⊆ words rt summary_text) /\
  (words rt original_text ⊈ words rt summary_text ->
   exists n, n <= 99 /\
     _simple_comparison rt original_text summary_text =
       Ok (VInt n, placeholder_correct, placeholder_missed, VList [])).
Proof.
  intros Hne Hsize.
  assert (Hlow : words rt original_text ⊈ words rt summary_text ->
    exists n, n <= 99 /\
      _simple_comparison rt original_text summary_text =
        Ok (VInt n, placeholder_correct, placeholder_missed, VList [])).
  { intros Hnot. rewrite simple_comparison_eq. cbv zeta.
    set (A := words rt original_text) in *. set (B := words rt summary_text) in *.
    pose proof (words_nonempty_size A Hne) as Hpos.
    assert (Hlt : (size (A ∩ B) < size A)%nat).
    { apply subset_size. split; [apply intersection_subseteq_l|].
      intros Hsub. apply Hnot. intros w Hw. specialize (Hsub w Hw).
      by apply elem_of_intersection in Hsub as [_ ?]. }
    destruct (Z.ltb_spec 0 (Z.of_nat (size A))); [|lia].
    eexists. split; [|reflexivity].
    assert (Hab : 0 <= Z.of_nat (size (A ∩ B)) < Z.of_nat (size A)) by lia.
    pose proof (percent_below_100 _ _ Hab Hsize). lia. }
  split; [|exact Hlow]. split.
  - intros H100. destruct (decide (words rt original_text ⊆ words rt summary_text))
      as [|Hnot]; [done|].
    destruct (Hlow Hnot) as (n & Hn & Hres). rewrite Hres in H100.
    injection H100 as ->. lia.
  - intros Hsub. rewrite simple_comparison_eq. cbv zeta.
    rewrite (subseteq_intersection_1_L _ _ Hsub).
    pose proof (words_nonempty_size _ Hne).
    destruct (Z.ltb_spec 0 (Z.of_nat (size (words rt original_text)))); [|lia].
    by rewrite percent_all.
Qed.

Lemma full_score_means_full_coverage_witness :
  exists n, n <= 99 /\
    _simple_comparison ascii_runtime (u "alpha beta gamma") (u "gamma alpha delta") =
      Ok (VInt n, placeholder_correct, placeholder_missed, VList []).
Proof.
  apply full_score_means_full_coverage.
  - vm_compute. discriminate.
  - vm_compute. discriminate.
  - apply (bool_decide_eq_false_1 _). vm_compute. reflexivity.
Defined.
